(** * Session turn orchestration of the role-play chat backend

    Shallow embedding of [app/redis_cache.py], [app/crud.py],
    [app/characters.py] and the [/chat] and [/chat/stream] handlers of
    [main.py].

    - Redis is one keyspace [gmap string rentry]; every key carries an
      absolute expiry and is live while the clock is strictly below it.
      A history value is kept as the parsed list (the JSON round trip
      of [json.dumps]/[json.loads] on a list of dicts is the identity).
    - The database is the [chat_history] rows in insertion order, the
      [chat_sessions] rows and the [character_info] rows.
    - Handlers run in a state and exception monad [M] over a world that
      also records an observation log: each primitive call (history
      read, store query, model call, write) and each server-sent event.
    - The upstream model is an input of the run ([env]): its one-shot
      answer, the fragments its stream yields and the error it may end
      with, and which store primitives raise. *)

From Stdlib Require Import String ZArith Lia Wf_nat Sorted.
From stdpp Require Import base gmap strings list.

Open Scope string_scope.
Open Scope Z_scope.
Open Scope list_scope.

(** ** Data model *)

(** A history entry [{"role": ..., "content": ...}]. *)
Record msg := mkMsg { role : string; content : string }.

(** A [chat_history] row ([models.ChatHistory]). *)
Record history_row := mkRow {
  row_session_id : string;
  row_character_id : option Z;
  row_character_name : string;
  row_role : string;
  row_message : string;
  row_created_at : Z
}.

(** A [chat_sessions] row ([models.ChatSession]); title omitted. *)
Record session_row := mkSession {
  sess_character_id : option Z;
  sess_last_active_at : Z
}.

(** A [character_info] row ([models.CharacterInfo]). *)
Record character_info := mkCharacter {
  char_id : Z;
  char_name : string;
  background : option string;
  personality : option string;
  skills : option string;
  current_playstyle : option string
}.

(** Values stored in Redis: the lock value [1] or a JSON history. *)
Inductive rvalue := RInt (n : Z) | RHist (h : list msg).

Record rentry := mkEntry { r_val : rvalue; r_expires : Z }.

(** Primitive calls made by a turn, as they appear in the log. *)
Inductive prim :=
  | PGetHist (sid : string)
  | PSetHist (sid : string) (h : list msg)
  | PLoadDb (sid : string) (limit : nat)
  | PAddTurn (sid : string)
  | PGetSession (sid : string)
  | PGetChar
  | PModel (msgs : list msg)
  | PModelStream (msgs : list msg).

(** Server-sent events of [/chat/stream]:
    [data: {"content": ...}], [data: {"error": ...}] and [data: [DONE]]. *)
Inductive sse_event := EvContent (s : string) | EvError (s : string) | EvDone.

Inductive obs := OPrim (p : prim) | OEmit (e : sse_event).

Record world := mkWorld {
  clock : Z;
  redis : gmap string rentry;
  rows : list history_row;
  sessions : gmap string session_row;
  characters : list character_info;
  log : list obs
}.

Definition set_redis (r : gmap string rentry) (w : world) : world :=
  mkWorld (clock w) r (rows w) (sessions w) (characters w) (log w).
Definition set_db (rs : list history_row) (ss : gmap string session_row)
    (w : world) : world :=
  mkWorld (clock w) (redis w) rs ss (characters w) (log w).
Definition add_log (o : obs) (w : world) : world :=
  mkWorld (clock w) (redis w) (rows w) (sessions w) (characters w) (log w ++ [o]).
Definition tick (d : N) (w : world) : world :=
  mkWorld (clock w + Z.of_N d) (redis w) (rows w) (sessions w) (characters w) (log w).

(** The request body [ChatIn]. *)
Record chat_in := mkChatIn {
  message : string;
  session_id : string;
  character_name : option string;
  character_id : option Z;
  model : option string
}.

(** Exceptions that cross the handlers: FastAPI's [HTTPException], a
    failing cache or store primitive, [qiniu_llm.LLMError], Python's
    [TypeError] and [ValueError], an exception of [requests] (connection
    error, timeout, a read that fails), and a database error raised by
    PostgreSQL. *)
Inductive exn :=
  | HTTPException (status_code : Z) (detail : string)
  | StoreError (p : prim)
  | LLMError (m : string)
  | TypeError (m : string)
  | ValueError (m : string)
  | RequestException (m : string)
  | DataError (m : string).

Definition exn_str (e : exn) : string :=
  match e with
  | HTTPException _ d => d
  | StoreError _ => "store error"
  | LLMError m | TypeError m | ValueError m | RequestException m | DataError m => m
  end.

Inductive llm_reply := Reply (s : string) | Fail (m : string).

(** What the outside world does during one run. *)
Record env := mkEnv {
  env_fail : prim -> bool;          (* store primitives that raise *)
  env_reply : llm_reply;            (* one-shot model answer *)
  env_stream : list string * option string
    (* fragments yielded, then the error the stream raises, if any *)
}.

(** ** The monad: state, exceptions and the observation log *)

Inductive result (A : Type) := Ok (a : A) | Raise (e : exn).
Arguments Ok {A} a.
Arguments Raise {A} e.

Definition M (A : Type) := env -> world -> result A * world.

Global Instance M_ret : MRet M := fun A a _ w => (Ok a, w).
Global Instance M_bind : MBind M := fun A B f m en w =>
  match m en w with
  | (Ok a, w') => f a en w'
  | (Raise e, w') => (Raise e, w')
  end.

Definition raise {A} (e : exn) : M A := fun _ w => (Raise e, w).

(** [try: body finally: fin] *)
Definition try_finally {A} (body : M A) (fin : M unit) : M A :=
  fun en w =>
    match body en w with
    | (r, w1) =>
        match fin en w1 with
        | (Ok _, w2) => (r, w2)
        | (Raise e, w2) => (Raise e, w2)
        end
    end.

(** [try: body except Exception as e: handler(e)] *)
Definition try_except {A} (body : M A) (handler : exn -> M A) : M A :=
  fun en w =>
    match body en w with
    | (Ok a, w1) => (Ok a, w1)
    | (Raise e, w1) => handler e en w1
    end.

(** A call to a store primitive: logged, and raising when the
    environment makes it fail (the write is then not applied). *)
Definition prim_call {A} (p : prim) (k : world -> A * world) : M A :=
  fun en w =>
    let w0 := add_log (OPrim p) w in
    if env_fail en p then (Raise (StoreError p), w0)
    else let '(a, w1) := k w0 in (Ok a, w1).

Definition emit (ev : sse_event) : M unit :=
  fun _ w => (Ok tt, add_log (OEmit ev) w).

(** ** Python [str.strip()] on UTF-8 text

    Strings hold the UTF-8 bytes of Python [str] values. [str.strip()]
    removes leading and trailing characters for which [str.isspace()]
    holds: U+0009..U+000D, U+001C..U+001F, U+0020, U+0085, U+00A0,
    U+1680, U+2000..U+200A, U+2028, U+2029, U+202F, U+205F and U+3000.
    On valid UTF-8 a byte of one of these encodings at either end of the
    text starts or ends a whole character, so matching the encodings byte
    by byte removes exactly those characters. *)

Definition code (c : Ascii.ascii) : nat := Ascii.nat_of_ascii c.

(** One-byte encodings. *)
Definition ws1 (c : Ascii.ascii) : bool :=
  let n := code c in
  (Nat.leb 9 n && Nat.leb n 13) || (Nat.leb 28 n && Nat.leb n 31) || Nat.eqb n 32.

(** Two-byte encodings, bytes in text order: U+0085 and U+00A0. *)
Definition ws2 (c1 c2 : Ascii.ascii) : bool :=
  Nat.eqb (code c1) 194 && (Nat.eqb (code c2) 133 || Nat.eqb (code c2) 160).

(** Three-byte encodings, bytes in text order. *)
Definition ws3 (c1 c2 c3 : Ascii.ascii) : bool :=
  let a := code c1 in let b := code c2 in let d := code c3 in
  (Nat.eqb a 225 && Nat.eqb b 154 && Nat.eqb d 128)
  || (Nat.eqb a 226 && Nat.eqb b 128 &&
        ((Nat.leb 128 d && Nat.leb d 138) || Nat.eqb d 168 || Nat.eqb d 169
         || Nat.eqb d 175))
  || (Nat.eqb a 226 && Nat.eqb b 129 && Nat.eqb d 159)
  || (Nat.eqb a 227 && Nat.eqb b 128 && Nat.eqb d 128).

(** Drop whitespace encodings from the front of a byte list; [w2] and
    [w3] recognise the multi-byte encodings in the order the bytes are
    met. *)
Fixpoint strip_front (w2 : Ascii.ascii -> Ascii.ascii -> bool)
    (w3 : Ascii.ascii -> Ascii.ascii -> Ascii.ascii -> bool)
    (l : list Ascii.ascii) : list Ascii.ascii :=
  match l with
  | [] => []
  | c1 :: r1 =>
      if ws1 c1 then strip_front w2 w3 r1 else
      match r1 with
      | c2 :: r2 =>
          if w2 c1 c2 then strip_front w2 w3 r2 else
          match r2 with
          | c3 :: r3 => if w3 c1 c2 c3 then strip_front w2 w3 r3 else l
          | [] => l
          end
      | [] => l
      end
  end.

Definition lstrip_l (l : list Ascii.ascii) : list Ascii.ascii := strip_front ws2 ws3 l.

(** Trailing encodings, read from the end: their bytes come reversed. *)
Definition rstrip_l (l : list Ascii.ascii) : list Ascii.ascii :=
  rev (strip_front (fun a b => ws2 b a) (fun a b c => ws3 c b a) (rev l)).

Definition py_strip (s : string) : string :=
  string_of_list_ascii (rstrip_l (lstrip_l (list_ascii_of_string s))).

(** [s.lower() == "string"]. Only ASCII capitals are changed here: a
    non-ASCII character whose lowercase form is pure ASCII is U+212A
    (to "k"), and U+0130 lowers to "i" followed by U+0307, so neither can
    make the text equal to "string". *)
Definition ascii_lower (c : Ascii.ascii) : Ascii.ascii :=
  let n := code c in
  if Nat.leb 65 n && Nat.leb n 90 then Ascii.ascii_of_nat (n + 32) else c.

Definition lower_is_string (s : string) : bool :=
  String.eqb (string_of_list_ascii (map ascii_lower (list_ascii_of_string s))) "string".

(** [os.getenv(name, default)] given the variable's value, if set. *)
Definition getenv_default (v : option string) (default : string) : string :=
  match v with Some x => x | None => default end.

(** ** [app/qiniu_llm.py]: the SSE relay [chat_stream] *)

Module QiniuLLM.

(** The lines [chat_stream] yields:
    [data: {"content": ...}], [data: {"raw": ...}],
    [data: {"error": "<status> <text>"}] and [data: [DONE]]. *)
Inductive sse_out :=
  | OutContent (s : string)
  | OutRaw (line : string)
  | OutError (status_code : Z) (text : string)
  | OutDone.

(** Python [bytes.strip()]: ASCII whitespace, [b" \t\n\r\x0b\x0c"]. *)
Definition space_byte (c : Ascii.ascii) : bool :=
  let n := code c in (Nat.leb 9 n && Nat.leb n 13) || Nat.eqb n 32.

Fixpoint drop_space_bytes (l : list Ascii.ascii) : list Ascii.ascii :=
  match l with
  | c :: r => if space_byte c then drop_space_bytes r else l
  | [] => []
  end.

Definition bytes_strip (s : string) : string :=
  string_of_list_ascii
    (rev (drop_space_bytes (rev (drop_space_bytes (list_ascii_of_string s))))).

Section Relay.

(** [b.decode("utf-8", errors="replace")]; a strict decode that
    succeeds gives the same text. *)
Variable decode : string -> string.

(** [json.loads(line)["choices"][0].get("delta", {}).get("content")]:
    [None] when it raises, [Some None] when the value is absent or null,
    [Some (Some d)] with [d] the value's text otherwise. *)
Variable parse_delta : string -> option (option string).

(** The [for raw in r.iter_lines(...)] loop, then the final [DONE]. A
    [data: [DONE]] line yields [DONE] and breaks out of the loop, after
    which the final [DONE] is yielded as well. *)
Fixpoint relay (lines : list string) : list sse_out :=
  match lines with
  | [] => [OutDone]
  | raw :: rest =>
      if String.eqb raw "" then relay rest
      else if String.prefix "data: " raw then
        let line_bytes := bytes_strip (String.substring 6 (String.length raw - 6)%nat raw) in
        if String.eqb line_bytes "[DONE]" then [OutDone; OutDone]
        else
          let line := decode line_bytes in
          match parse_delta line with
          | Some (Some d) => if String.eqb d "" then relay rest else OutContent d :: relay rest
          | Some None => relay rest
          | None => OutRaw line :: relay rest
          end
      else relay rest
  end.

(** The same loop when reading the stream raises [read_error] once
    [lines] have been read ([None]: the stream ends normally). A
    [data: [DONE]] line among [lines] ends the loop before the failing
    read; otherwise the exception ends the generator after what was
    yielded so far. *)
Fixpoint relay_err (lines : list string) (read_error : option string)
    : list sse_out * option exn :=
  match lines with
  | [] =>
      match read_error with
      | None => ([OutDone], None)
      | Some m => ([], Some (RequestException m))
      end
  | raw :: rest =>
      if String.eqb raw "" then relay_err rest read_error
      else if String.prefix "data: " raw then
        let line_bytes := bytes_strip (String.substring 6 (String.length raw - 6)%nat raw) in
        if String.eqb line_bytes "[DONE]" then ([OutDone; OutDone], None)
        else
          let line := decode line_bytes in
          match parse_delta line with
          | Some (Some d) =>
              if String.eqb d "" then relay_err rest read_error
              else let '(out, e) := relay_err rest read_error in (OutContent d :: out, e)
          | Some None => relay_err rest read_error
          | None => let '(out, e) := relay_err rest read_error in (OutRaw line :: out, e)
          end
      else relay_err rest read_error
  end.

End Relay.

(** What [requests.post(..., stream=True)] gives: it raises (connection
    error, timeout, ...), or the upstream answers with [status_code], its
    body [content] and, on 200, its SSE [lines]; [read_error] is the
    exception that reading the body raises, if any: after [lines] on 200,
    and on another status when [r.content] is read (in the [try] and
    again in its [except]). *)
Inductive answer :=
  | PostRaises (m : string)
  | Answer (status_code : Z) (content : string) (lines : list string)
      (read_error : option string).

Section Stream.

Variable decode : string -> string.
Variable parse_delta : string -> option (option string).

(** The generator, run until it ends or raises: what it yielded, and the
    exception it raised, if any. [_headers()] raises before anything is
    yielded when [QINIU_OPENAI_API_KEY] is unset or empty. *)
Definition chat_stream (api_key : option string) (a : answer) : list sse_out * option exn :=
  match api_key with
  | None | Some "" => ([], Some (LLMError "缺少 QINIU_OPENAI_API_KEY 环境变量"))
  | Some _ =>
      match a with
      | PostRaises m => ([], Some (RequestException m))
      | Answer status_code content lines read_error =>
          if negb (Z.eqb status_code 200) then
            match read_error with
            | Some m => ([], Some (RequestException m))
            | None => ([OutError status_code (decode content); OutDone], None)
            end
          else relay_err decode parse_delta lines read_error
      end
  end.

End Stream.

(** An upstream line that [relay] treats as the end marker. *)
Definition is_done_line (raw : string) : bool :=
  negb (String.eqb raw "") && String.prefix "data: " raw &&
  String.eqb (bytes_strip (String.substring 6 (String.length raw - 6)%nat raw)) "[DONE]".

Definition is_done (o : sse_out) : bool :=
  match o with OutDone => true | _ => false end.


End QiniuLLM.

(** ** Configuration

    [HISTORY_MAX_TURNS], [HISTORY_TTL_SECONDS] and
    [SESSION_LOCK_TTL_SECONDS] are read from the environment by
    [redis_cache.py]; they are parameters of the whole development. *)

Section Backend.

Variable MAX_TURNS : Z.
Variable TTL_SECONDS : Z.
Variable SESSION_LOCK_TTL_SECONDS : Z.

(** ** [app/redis_cache.py] *)

Definition _key (session_id : string) : string :=
  String.append "chat:hist:" session_id.

Definition _lock_key (session_id : string) : string :=
  String.append "chat:lock:" session_id.

(** Redis [GET]: a key whose expiry has passed is absent. *)
Definition redis_get (k : string) (w : world) : option rvalue :=
  match redis w !! k with
  | Some e => if clock w <? r_expires e then Some (r_val e) else None
  | None => None
  end.

(** [if not raw: return []], then [json.loads(raw)]. *)
Definition history_of (raw : option rvalue) : list msg :=
  match raw with
  | Some (RHist h) => h
  | _ => []
  end.

(** Python's [l[start:]] for an integer [start]. *)
Definition py_slice_from {A} (start : Z) (l : list A) : list A :=
  let n := Z.of_nat (length l) in
  let i := if start <? 0 then Z.max 0 (start + n) else Z.min start n in
  drop (Z.to_nat i) l.

Definition get_history (session_id : string) : M (list msg) :=
  prim_call (PGetHist session_id)
    (fun w => (history_of (redis_get (_key session_id) w), w)).

(** [if len(history) > MAX_TURNS * 2: history = history[-MAX_TURNS*2:]],
    then [SET key json EX TTL_SECONDS]. *)
Definition set_history (session_id : string) (history : list msg) : M unit :=
  let history :=
    if Z.of_nat (length history) >? MAX_TURNS * 2
    then py_slice_from (- MAX_TURNS * 2) history else history in
  prim_call (PSetHist session_id history)
    (fun w => (tt, set_redis (<[_key session_id :=
                    mkEntry (RHist history) (clock w + TTL_SECONDS)]> (redis w)) w)).

Definition append_pair (session_id user_msg assistant_msg : string) : M unit :=
  hist ← get_history session_id;
  set_history session_id
    (hist ++ [mkMsg "user" user_msg; mkMsg "assistant" assistant_msg]).

Definition lock_held (session_id : string) (w : world) : bool :=
  match redis_get (_lock_key session_id) w with
  | Some _ => true
  | None => false
  end.

(** [SET chat:lock:<sid> 1 NX EX SESSION_LOCK_TTL_SECONDS]: one atomic
    command that writes only when the key is absent (or expired) and
    reports whether it wrote. *)
Definition acquire_lock (session_id : string) (w : world) : bool * world :=
  if lock_held session_id w then (false, w)
  else (true, set_redis (<[_lock_key session_id :=
          mkEntry (RInt 1) (clock w + SESSION_LOCK_TTL_SECONDS)]> (redis w)) w).

(** [DEL chat:lock:<sid>]. *)
Definition release_lock (session_id : string) (w : world) : world :=
  set_redis (delete (_lock_key session_id) (redis w)) w.

Definition acquire_session_lock (session_id : string) : M bool :=
  fun _ w => let '(b, w') := acquire_lock session_id w in (Ok b, w').

Definition release_session_lock (session_id : string) : M unit :=
  fun _ w => (Ok tt, release_lock session_id w).

(** ** [app/crud.py] *)

(** [ORDER BY created_at ASC]: rows are sorted by [created_at]; rows
    with equal timestamps keep their insertion order (one admissible
    order for the database). *)
Fixpoint ins_row (r : history_row) (l : list history_row) : list history_row :=
  match l with
  | [] => [r]
  | x :: t =>
      if row_created_at r <? row_created_at x then r :: x :: t
      else x :: ins_row r t
  end.

Definition order_by_created_at (l : list history_row) : list history_row :=
  fold_left (fun acc r => ins_row r acc) l [].

(** [SELECT role, message FROM chat_history WHERE session_id = :sid
     ORDER BY created_at ASC LIMIT :limit] *)
Definition query_history (session_id : string) (limit : nat)
    (rs : list history_row) : list msg :=
  map (fun r => mkMsg (row_role r) (row_message r))
    (take limit (order_by_created_at
       (filter (fun r => row_session_id r = session_id) rs))).

Definition load_history_from_db (session_id : string) (limit : nat) : M (list msg) :=
  prim_call (PLoadDb session_id limit)
    (fun w => (query_history session_id limit (rows w), w)).

Definition upsert_session (session_id : string) (character_id : option Z)
    (w : world) : gmap string session_row :=
  match sessions w !! session_id with
  | Some s => <[session_id := mkSession (sess_character_id s) (clock w)]> (sessions w)
  | None => <[session_id := mkSession character_id (clock w)]> (sessions w)
  end.

(** Two rows in one commit; [created_at] is the server timestamp. *)
Definition add_turn (session_id : string) (character_id : option Z)
    (character_name : option string) (user_msg assistant_msg : string) : M unit :=
  prim_call (PAddTurn session_id) (fun w =>
    let nm := match character_name with Some n => n | None => "" end in
    (tt, set_db
           (rows w ++ [mkRow session_id character_id nm "user" user_msg (clock w);
                       mkRow session_id character_id nm "assistant" assistant_msg (clock w)])
           (upsert_session session_id character_id w) w)).

(** ** [app/characters.py] *)

(** Python truthiness of an optional text column. *)
Definition truthy (o : option string) : bool :=
  match o with Some s => negb (String.eqb s "") | None => false end.

Definition opt_text (o : option string) : string :=
  match o with Some s => s | None => "" end.

Definition get_character_by_id (chars : list character_info) (cid : Z)
    : option character_info :=
  List.find (fun c => Z.eqb (char_id c) cid) chars.

Definition get_character_by_name (chars : list character_info) (name : string)
    : option character_info :=
  List.find (fun c => String.eqb (char_name c) name) chars.

Definition generic_prompt : string := "You are a helpful assistant.".
Definition stay_in_character : string := "请保持符合人设的语气进行多轮对话。".

Definition newline : string := String (Ascii.ascii_of_nat 10) "".

(** The [parts] list of [build_system_prompt]. *)
Definition prompt_parts (c : character_info) : list string :=
  let parts := [String.append "你的名字：" (char_name c)] in
  let parts := if truthy (background c)
               then parts ++ [String.append "背景：" (opt_text (background c))] else parts in
  let parts := if truthy (personality c)
               then parts ++ [String.append "性格：" (opt_text (personality c))] else parts in
  let parts := if truthy (skills c)
               then parts ++ [String.append "技能：" (opt_text (skills c))] else parts in
  let parts := if truthy (current_playstyle c)
               then parts ++ [String.append "当前对话风格："
                                (opt_text (current_playstyle c))] else parts in
  parts ++ [stay_in_character].

Definition render_prompt (char : option character_info) : string :=
  match char with
  | None => generic_prompt
  | Some c => String.concat newline (prompt_parts c)
  end.

Definition build_system_prompt (character_name : option string)
    (character_id : option Z) : M string :=
  char ← (match character_id with
          | Some cid => prim_call PGetChar
                          (fun w => (get_character_by_id (characters w) cid, w))
          | None =>
              if truthy character_name
              then prim_call PGetChar
                     (fun w => (get_character_by_name (characters w)
                                  (opt_text character_name), w))
              else mret None
          end);
  mret (render_prompt char).

(** ** [main.py] *)

Definition with_character_id (body : chat_in) (cid : Z) : chat_in :=
  mkChatIn (message body) (session_id body) (character_name body) (Some cid) (model body).

Definition _fill_bound_character_if_absent (body : chat_in) : M chat_in :=
  if bool_decide (character_id body = None) && negb (truthy (character_name body)) then
    s ← prim_call (PGetSession (session_id body))
          (fun w => (sessions w !! session_id body, w));
    match s with
    | Some srow =>
        match sess_character_id srow with
        | Some cid => if Z.eqb cid 0 then mret body else mret (with_character_id body cid)
        | None => mret body
        end
    | None => mret body
    end
  else mret body.

Definition assemble_messages (system_prompt : string) (history : list msg)
    (user_msg : string) : list msg :=
  [mkMsg "system" system_prompt] ++ history ++ [mkMsg "user" user_msg].

(** Step 1 of both handlers: the cache, with the store as fallback. *)
Definition read_history (session_id : string) : M (list msg) :=
  history ← get_history session_id;
  match history with
  | [] => load_history_from_db session_id 100
  | _ => mret history
  end.

(** The one-shot model call [qiniu_llm.chat_completion]: a synchronous
    function that returns the reply text or raises [LLMError]; its
    outcome comes from [env]. *)
Definition chat_completion (messages : list msg) : M string :=
  fun en w =>
    let w0 := add_log (OPrim (PModel messages)) w in
    match env_reply en with
    | Reply s => (Ok s, w0)
    | Fail m => (Raise (LLMError m), w0)
    end.

(** [await] on the value [chat_completion] returned: a [str] is not
    awaitable, so [await] raises [TypeError]. *)
Definition await_str (s : string) : M string :=
  raise (TypeError "object str can't be used in 'await' expression").

Definition lock_conflict : exn :=
  HTTPException 409 "会话正在处理中，请稍后再试。".

Definition chat (body : chat_in) : M string :=
  let sid := session_id body in
  if String.eqb sid "" then raise (HTTPException 400 "session_id required") else
  lock_acquired ← acquire_session_lock sid;
  if negb lock_acquired then raise lock_conflict else
  try_finally
    (history ← read_history sid;
     body ← _fill_bound_character_if_absent body;
     system_prompt ← build_system_prompt (character_name body) (character_id body);
     let messages := assemble_messages system_prompt history (message body) in
     reply ← try_except (r ← chat_completion messages; await_str r)
               (fun e => raise (HTTPException 502
                                  (String.append "LLM upstream error: " (exn_str e))));
     append_pair sid (message body) reply;;
     add_turn sid (character_id body) (character_name body) (message body) reply;;
     mret reply)
    (release_session_lock sid).

(** Modelled from the spec: [chat_completion_stream], imported by
    [main.py] but absent from [app/qiniu_llm.py]. It is a lazy, finite
    sequence of text fragments that ends normally or raises an upstream
    error; [env_stream] gives the fragments and the final error.
    Together with it, the [async for] loop of [chat_stream] that
    appends each fragment to [full_reply_content] and yields it. *)
Fixpoint forward_fragments (frags acc : list string) : M (list string) :=
  match frags with
  | [] => mret acc
  | f :: fs => emit (EvContent f);; forward_fragments fs (acc ++ [f])
  end.

Definition stream_and_collect (messages : list msg) : M (list string) :=
  fun en w =>
    let w0 := add_log (OPrim (PModelStream messages)) w in
    (acc ← forward_fragments (fst (env_stream en)) [];
     match snd (env_stream en) with
     | Some m => raise (LLMError m)
     | None => mret acc
     end) en w0.

(** The generator [gen()] of [chat_stream], driven to its end by the
    streaming response. [None] is the early [return] of the upstream
    error branch. *)
Definition gen (body : chat_in) : M unit :=
  let sid := session_id body in
  try_finally
    (history ← read_history sid;
     body ← _fill_bound_character_if_absent body;
     system_prompt ← build_system_prompt (character_name body) (character_id body);
     let messages := assemble_messages system_prompt history (message body) in
     r ← try_except (full ← stream_and_collect messages; mret (Some full))
           (fun e => emit (EvError (exn_str e));; emit EvDone;; mret None);
     match r with
     | None => mret tt
     | Some full_reply_content =>
         let full_text := String.concat "" full_reply_content in
         append_pair sid (message body) full_text;;
         add_turn sid (character_id body) (character_name body) (message body) full_text;;
         emit EvDone
     end)
    (release_session_lock sid).

Definition chat_stream (body : chat_in) : M unit :=
  let sid := session_id body in
  if String.eqb sid "" then raise (HTTPException 400 "session_id required") else
  lock_acquired ← acquire_session_lock sid;
  if negb lock_acquired then raise lock_conflict else
  gen body.

(** ** Auxiliary definitions for the statements *)

(** The server-sent events in a stretch of the log. *)
Fixpoint emitted (l : list obs) : list sse_event :=
  match l with
  | [] => []
  | OEmit e :: l' => e :: emitted l'
  | OPrim _ :: l' => emitted l'
  end.

Definition add_logs (l : list obs) (w : world) : world :=
  mkWorld (clock w) (redis w) (rows w) (sessions w) (characters w) (log w ++ l).

(** [w'] differs from [w] only by log entries that are not events:
    nothing was written and nothing was sent. *)
Definition ro_rel (w w' : world) : Prop :=
  exists l, w' = add_logs l w /\ emitted l = [].

(** [m] only ever moves the world along [R] (under environments [P]). *)
Definition preserves {A} (P : env -> Prop) (R : world -> world -> Prop) (m : M A) : Prop :=
  forall en w r w', P en -> m en w = (r, w') -> R w w'.

(** The session's cache entry, the durable rows and the clock are
    untouched. *)
Definition hist_frame (session_id : string) (w w' : world) : Prop :=
  redis w' !! _key session_id = redis w !! _key session_id /\ rows w' = rows w /\
  clock w' = clock w.

(** No store primitive raises. *)
Definition quiet (en : env) : Prop := forall p, env_fail en p = false.

(** [w'] extends the log of [w] by entries among which no [DONE] event
    is sent. *)
Definition done_free (w w' : world) : Prop :=
  exists l, log w' = log w ++ l /\ ~ In EvDone (emitted l).



(** [m] raises in every environment and from every world. *)
Definition always_raises {A} (m : M A) : Prop :=
  forall en w, exists e w', m en w = (Raise e, w').

(** The text after ["LLM upstream error: "] in the 502 of [/chat]: the
    [TypeError] of the [await] when the model answered, the [LLMError]
    otherwise. *)
Definition upstream_failure_text (r : llm_reply) : string :=
  match r with
  | Reply _ => "object str can't be used in 'await' expression"
  | Fail m => m
  end.

(** The history [set_history] actually writes. *)
Definition truncated (history : list msg) : list msg :=
  if Z.of_nat (length history) >? MAX_TURNS * 2
  then py_slice_from (- MAX_TURNS * 2) history else history.

(** The cached history of a session, as [get_history] reads it. *)
Definition cached (session_id : string) (w : world) : list msg :=
  history_of (redis_get (_key session_id) w).

(** Operations interleaved with lock acquisitions: other lock calls,
    the passing of time, and cache writes. *)
Inductive lock_op :=
  | LAcquire (sid : string)
  | LRelease (sid : string)
  | LTick (d : N)
  | LSetHist (sid : string) (h : list msg).

Definition quiet_env : env := mkEnv (fun _ => false) (Reply "") ([], None).

Definition lock_step (op : lock_op) (w : world) : world :=
  match op with
  | LAcquire s => snd (acquire_lock s w)
  | LRelease s => release_lock s w
  | LTick d => tick d w
  | LSetHist s h => snd (set_history s h quiet_env w)
  end.

Fixpoint run_lock_ops (ops : list lock_op) (w : world) : world :=
  match ops with
  | [] => w
  | op :: ops' => run_lock_ops ops' (lock_step op w)
  end.

(** The DurableStore read as the spec words [load_recent]: the
    session's last [limit] turns, in ascending creation order. *)
Definition spec_load_recent (session_id : string) (limit : nat)
    (rs : list history_row) : list msg :=
  let ordered := order_by_created_at
                   (filter (fun r => row_session_id r = session_id) rs) in
  map (fun r => mkMsg (row_role r) (row_message r))
    (drop (length ordered - limit) ordered).

(** The prompt as the claim words it: the character's present non-empty
    attributes, name included, then the fixed instruction. *)
Definition claim_prompt_parts (c : character_info) : list string :=
  map (fun '(label, v) => String.append label (opt_text v))
    (filter (fun '(_, v) => truthy v = true)
       [("你的名字：", Some (char_name c)); ("背景：", background c);
        ("性格：", personality c); ("技能：", skills c);
        ("当前对话风格：", current_playstyle c)])
  ++ [stay_in_character].

Definition stream_handler (e : exn) : M (option (list string)) :=
  emit (EvError (exn_str e));; emit EvDone;; mret None.

Definition cache_write (sid : string) (h : list msg) (w : world) : world :=
  set_redis (<[_key sid := mkEntry (RHist h) (clock w + TTL_SECONDS)]> (redis w)) w.


(** The character id the prompt is built from after
    [_fill_bound_character_if_absent]: the request's own id, else the
    session's bound id when the request names no character. *)
Definition bound_character_id (body : chat_in) (w : world) : option Z :=
  match character_id body with
  | Some cid => Some cid
  | None =>
      if truthy (character_name body) then None else
      match sessions w !! session_id body with
      | Some s =>
          match sess_character_id s with
          | Some cid => if Z.eqb cid 0 then None else Some cid
          | None => None
          end
      | None => None
      end
  end.

(** The character a turn's prompt is built from, if any. *)
Definition resolved_character (body : chat_in) (w : world) : option character_info :=
  match bound_character_id body w with
  | Some cid => get_character_by_id (characters w) cid
  | None =>
      if truthy (character_name body)
      then get_character_by_name (characters w) (opt_text (character_name body))
      else None
  end.

(** The prompt lines of a resolved character: the name line always, then
    the non-empty attributes in order, then the fixed instruction. *)
Definition name_then_present_attributes (c : character_info) : list string :=
  String.append "你的名字：" (char_name c)
  :: map (fun '(label, v) => String.append label (opt_text v))
       (List.filter (fun '(_, v) => truthy v)
          [("背景：", background c); ("性格：", personality c);
           ("技能：", skills c); ("当前对话风格：", current_playstyle c)])
  ++ [stay_in_character].

(** The messages of the first model call in a log. *)
Fixpoint first_model_input (l : list obs) : option (list msg) :=
  match l with
  | [] => None
  | OPrim (PModel m) :: _ => Some m
  | OPrim (PModelStream m) :: _ => Some m
  | _ :: l' => first_model_input l'
  end.

(** ** Sample inputs *)

Definition fresh_world : world := mkWorld 0 ∅ [] ∅ [] [].

(** Row [i] of a session with 101 stored turns, alternating user and
    assistant, created at second [i]. *)
Definition sample_row (i : nat) : history_row :=
  mkRow "s1" None "" (if Nat.even i then "user" else "assistant")
    (if Nat.eqb i 0 then "oldest" else if Nat.eqb i 100 then "newest" else "m")
    (Z.of_nat i).

Definition world_101_rows : world :=
  mkWorld 1000 ∅ (map sample_row (seq 0 101)) ∅ [] [].

Definition hello_body (sid : string) : chat_in := mkChatIn "hello" sid None None None.

Definition reply_env (s : string) : env := mkEnv (fun _ => false) (Reply s) ([], None).


Definition upstream_down_env : env :=
  mkEnv (fun _ => false) (Fail "timeout") (["par"], Some "timeout").



Definition empty_name_character : character_info := mkCharacter 7 "" None None None None.

Definition world_empty_name : world := mkWorld 0 ∅ [] ∅ [empty_name_character] [].

Definition sample_lock_ops : list lock_op := [LAcquire "s2"; LTick 10; LSetHist "s1" []].

(** ** More of [main.py] and [app/crud.py] *)

(** [_choose_model]: the request's model name, stripped, unless it is
    blank or the Swagger placeholder ["string"] in any letter case. *)
Definition _choose_model (body_model : option string) : option string :=
  match body_model with
  | None => None
  | Some m =>
      let val := py_strip m in
      if String.eqb val "" || lower_is_string val then None else Some val
  end.

(** Text sent to PostgreSQL. [psycopg2] interpolates every parameter
    into the SQL text on the client, so a parameter is a literal of the
    statement, and a Python string holding a NUL character is refused
    there with a [ValueError] before anything is sent. *)
Definition contains_nul (s : string) : bool :=
  existsb (fun c => Nat.eqb (code c) 0) (list_ascii_of_string s).

Definition opt_contains_nul (o : option string) : bool :=
  match o with Some s => contains_nul s | None => false end.

Definition nul_message : string := "A string literal cannot contain NUL (0x00) characters.".

(** A byte that continues a multi-byte UTF-8 sequence. *)
Definition is_cont (c : Ascii.ascii) : bool := Nat.leb 128 (code c) && Nat.ltb (code c) 192.

(** The number of characters of a UTF-8 text, as PostgreSQL counts them
    in a UTF-8 database. *)
Fixpoint char_count_l (l : list Ascii.ascii) : nat :=
  match l with
  | [] => O
  | c :: r => ((if is_cont c then O else 1) + char_count_l r)%nat
  end.

Definition char_length (s : string) : nat := char_count_l (list_ascii_of_string s).

(** The bytes of the first [n] characters of [l], and the bytes after
    them ([pg_mbcharcliplen]). *)
Fixpoint split_chars (n : nat) (l : list Ascii.ascii) : list Ascii.ascii * list Ascii.ascii :=
  match l with
  | [] => ([], [])
  | c :: r =>
      if is_cont c then let '(a, b) := split_chars n r in (c :: a, b)
      else match n with
           | O => ([], l)
           | S n' => let '(a, b) := split_chars n' r in (c :: a, b)
           end
  end.

(** A text literal stored into a [varchar(n)] column ([varchar_input]):
    a text longer than [n] characters is an error, unless the characters
    past the [n]th are all spaces, which are then cut off. *)
Definition pg_varchar (n : nat) (s : string) : option string :=
  let '(a, b) := split_chars n (list_ascii_of_string s) in
  if forallb (fun c => Nat.eqb (code c) 32) b then Some (string_of_list_ascii a) else None.

(** The request body [CharacterIn]. *)
Record character_in := mkCharacterIn {
  ci_name : string;
  ci_background : option string;
  ci_personality : option string;
  ci_skills : option string;
  ci_current_playstyle : option string
}.

Definition set_characters (cs : list character_info) (w : world) : world :=
  mkWorld (clock w) (redis w) (rows w) (sessions w) cs (log w).

(** [POST /characters]. [new_id] is the value the [SERIAL] column
    assigns to the inserted row. The name query and the [INSERT] fail on
    a NUL character; the [INSERT] stores the name into [name
    varchar(255)], and [db.refresh(ch)] reads the stored name back. The
    other columns are [TEXT]. *)
Definition create_character (new_id : Z) (body : character_in) (w : world)
    : result (Z * string) * world :=
  if contains_nul (ci_name body) then (Raise (ValueError nul_message), w) else
  match get_character_by_name (characters w) (ci_name body) with
  | Some _ => (Raise (HTTPException 409 "character name already exists"), w)
  | None =>
      if opt_contains_nul (ci_background body) || opt_contains_nul (ci_personality body)
         || opt_contains_nul (ci_skills body) || opt_contains_nul (ci_current_playstyle body)
      then (Raise (ValueError nul_message), w) else
      match pg_varchar 255 (ci_name body) with
      | None => (Raise (DataError "value too long for type character varying(255)"), w)
      | Some name =>
          let ch := mkCharacter new_id name (ci_background body)
                      (ci_personality body) (ci_skills body) (ci_current_playstyle body) in
          (Ok (char_id ch, char_name ch), set_characters (characters w ++ [ch]) w)
      end
  end.




(** [{"deleted": 0}] or [{"deleted": 1, "session_id": sid}]. *)
Inductive delete_result := Deleted0 | Deleted1 (session_id : string).

(** [delete_session]; the history rows go with the session row through
    [ON DELETE CASCADE]. *)
Definition delete_session (sid : string) (w : world) : delete_result * world :=
  match sessions w !! sid with
  | None => (Deleted0, w)
  | Some _ =>
      (Deleted1 sid,
       set_db (List.filter (fun r => negb (String.eqb (row_session_id r) sid)) (rows w))
              (delete sid (sessions w)) w)
  end.

(** [delete_history]: [DEL chat:hist:<sid>]. *)
Definition delete_history (sid : string) (w : world) : world :=
  set_redis (delete (_key sid) (redis w)) w.

(** [DELETE /sessions/{sid}]. *)
Definition remove_session (sid : string) (w : world) : delete_result * world :=
  let '(result, w1) := delete_session sid w in
  match result with
  | Deleted1 _ => (result, release_lock sid (delete_history sid w1))
  | Deleted0 => (result, w1)
  end.


(** An entry of the [/models] answer. *)
Record model_entry := mkModelEntry { me_id : string; me_label : string; me_recommended : bool }.

(** Python [s.split(",")] on bytes. *)
Fixpoint split_comma_l (l : list Ascii.ascii) : list (list Ascii.ascii) :=
  match l with
  | [] => [[]]
  | c :: r =>
      let parts := split_comma_l r in
      if Nat.eqb (code c) 44 then [] :: parts
      else match parts with
           | p :: ps => (c :: p) :: ps
           | [] => [[c]]
           end
  end.

Definition py_split_comma (s : string) : list string :=
  map string_of_list_ascii (split_comma_l (list_ascii_of_string s)).

(** Python [s.rstrip("/")]. *)
Fixpoint drop_slashes (l : list Ascii.ascii) : list Ascii.ascii :=
  match l with
  | c :: r => if Nat.eqb (code c) 47 then drop_slashes r else l
  | [] => []
  end.

Definition rstrip_slash (s : string) : string :=
  string_of_list_ascii (rev (drop_slashes (rev (list_ascii_of_string s)))).

Definition str_in (x : string) (l : list string) : bool := existsb (String.eqb x) l.

(** [GET /models], given the environment variables [MODELS_CURATED],
    [LLM_MODEL], [VERIFY_MODELS] and [QINIU_OPENAI_BASE], and the ids the
    upstream [/models] call lists ([None] when that call raises). *)
Definition list_models (curated_env default_env verify_env base_env : option string)
    (upstream_ids : option (list string)) : string * list model_entry :=
  let curated := List.filter (fun m => negb (String.eqb m ""))
                   (map py_strip (py_split_comma (getenv_default curated_env "deepseek-v3"))) in
  let default_model := getenv_default default_env "deepseek-v3" in
  let verify := String.eqb (getenv_default verify_env "0") "1" in
  let available :=
    if verify then
      let base := rstrip_slash (getenv_default base_env "") in
      if negb (String.eqb base "") then
        match upstream_ids with
        | Some ids => List.filter (fun m => str_in m ids) curated
        | None => curated
        end
      else curated
    else curated in
  let models := map (fun m => mkModelEntry m m (String.eqb m default_model))
                  (List.filter (fun m => str_in m available) curated) in
  let models := if str_in default_model (map me_id models) then models
                else mkModelEntry default_model default_model true :: models in
  (default_model, models).

(** Every session's bound character is kept (the row may be updated). *)
Definition binding_frame (w w' : world) : Prop :=
  forall sid s, sessions w !! sid = Some s ->
    exists s', sessions w' !! sid = Some s' /\ sess_character_id s' = sess_character_id s.

(** Sample inputs for the properties below. *)
Definition alice : character_info :=
  mkCharacter 5 "Alice" (Some "a knight") None (Some "swordplay") None.

Definition world_alice : world := mkWorld 50 ∅ [] ∅ [alice] [].

Definition world_session_s1 : world :=
  mkWorld 80 (<[_key "s1" := mkEntry (RHist [mkMsg "user" "hi"]) 1000]>
               (<[_lock_key "s1" := mkEntry (RInt 1) 100]> ∅))
    [mkRow "s1" None "" "user" "hi" 10; mkRow "s2" None "" "user" "yo" 20;
     mkRow "s1" None "" "assistant" "hello" 10]
    (<[ "s1" := mkSession (Some 5) 10 ]> ∅) [alice] [].

Definition bob_in : character_in := mkCharacterIn "Bob" None (Some "a baker") None None.

(** ** Keys, lock and world lemmas *)

Lemma append_prefix_inj (p a b : string) :
  String.append p a = String.append p b -> a = b.
Proof. induction p as [|c p IH]; simpl; [done|]. intros H. injection H. exact IH. Qed.

Lemma key_ne_lock_key (a b : string) : _key a <> _lock_key b.
Proof. unfold _key, _lock_key. simpl. intros H. inversion H. Qed.

Lemma lock_key_inj (a b : string) : _lock_key a = _lock_key b -> a = b.
Proof. apply append_prefix_inj. Qed.

Lemma add_logs_app (l1 l2 : list obs) (w : world) :
  add_logs l2 (add_logs l1 w) = add_logs (l1 ++ l2) w.
Proof. unfold add_logs. simpl. by rewrite app_assoc. Qed.

Lemma add_logs_nil (w : world) : add_logs [] w = w.
Proof. destruct w. unfold add_logs. simpl. by rewrite app_nil_r. Qed.

Lemma add_log_logs (o : obs) (w : world) : add_log o w = add_logs [o] w.
Proof. reflexivity. Qed.

Lemma emitted_app (l1 l2 : list obs) : emitted (l1 ++ l2) = emitted l1 ++ emitted l2.
Proof. induction l1 as [|[p|e] l1 IH]; simpl; rewrite ?IH; done. Qed.

#[global] Instance ro_rel_preorder : PreOrder ro_rel.
Proof.
  split.
  - intros w. exists []. by rewrite add_logs_nil.
  - intros w1 w2 w3 [l1 [-> H1]] [l2 [-> H2]].
    exists (l1 ++ l2). rewrite add_logs_app, emitted_app, H1, H2. done.
Qed.

Lemma run_lock_ops_clock (ops : list lock_op) (w : world) :
  clock w <= clock (run_lock_ops ops w).
Proof.
  revert w. induction ops as [|op ops IH]; intros w; simpl; [lia|].
  etransitivity; [|apply IH].
  destruct op; simpl.
  - unfold acquire_lock. destruct (lock_held sid w); simpl; lia.
  - simpl. lia.
  - simpl. lia.
  - unfold set_history, prim_call. simpl. lia.
Qed.

(** A lock entry stays in place through operations that do not release
    it, as long as it has not expired. *)
Lemma lock_entry_kept (sid : string) (e : rentry) (ops : list lock_op) (w : world) :
  Forall (fun op => op <> LRelease sid) ops ->
  redis w !! _lock_key sid = Some e ->
  clock (run_lock_ops ops w) < r_expires e ->
  redis (run_lock_ops ops w) !! _lock_key sid = Some e.
Proof.
  revert w. induction ops as [|op ops IH]; intros w Hops He Hclk; simpl in *; [done|].
  inversion Hops as [|? ? Hop Hrest]; subst.
  apply IH; [done| |done].
  pose proof (run_lock_ops_clock ops (lock_step op w)) as Hmono.
  destruct op as [s|s|d|s h]; simpl in *.
  - unfold acquire_lock.
    destruct (decide (s = sid)) as [->|Hne].
    + assert (Hheld : lock_held sid w = true).
      { unfold lock_held, redis_get. rewrite He.
        destruct (acquire_lock sid w) eqn:Ea.
        unfold acquire_lock in Ea.
        destruct (lock_held sid w) eqn:El; simpl in Hmono;
          injection Ea as <- <-; simpl in Hmono;
          [|unfold lock_held, redis_get in El; rewrite He in El];
          (destruct (clock w <? r_expires e) eqn:Ec; [done|]);
          apply Z.ltb_ge in Ec; simpl in *; lia. }
      rewrite Hheld. done.
    + destruct (lock_held s w); simpl; [done|].
      rewrite lookup_insert_ne; [done|].
      intros Heq. apply Hne. apply lock_key_inj. done.
  - rewrite lookup_delete_ne; [done|].
    intros Heq. apply Hop. f_equal. apply lock_key_inj. done.
  - done.
  - unfold set_history, prim_call. simpl.
    rewrite lookup_insert_ne; [done|]. apply key_ne_lock_key.
Qed.

Lemma acquire_lock_cases (sid : string) (w : world) :
  acquire_lock sid w =
    if lock_held sid w then (false, w)
    else (true, set_redis (<[_lock_key sid :=
            mkEntry (RInt 1) (clock w + SESSION_LOCK_TTL_SECONDS)]> (redis w)) w).
Proof. reflexivity. Qed.

(** C2. [acquire_session_lock] is one set-if-absent: it answers [true]
    exactly when no live lock key exists, and then it has created the key
    with expiry now + [SESSION_LOCK_TTL_SECONDS]; on [false] it changes
    nothing. After a successful acquire, any sequence of operations that
    does not release this session's lock (other sessions' locks, cache
    writes, time passing) and ends before the TTL has elapsed leaves the
    next acquire on the same session answering [false]. *)
Theorem acquire_session_lock_mutual_exclusion (sid : string) (w w1 : world)
    (ops : list lock_op)
    (Hacq : acquire_lock sid w = (true, w1))
    (Hops : Forall (fun op => op <> LRelease sid) ops)
    (Hclk : clock (run_lock_ops ops w1) < clock w + SESSION_LOCK_TTL_SECONDS) :
  (forall w0,
     (fst (acquire_lock sid w0) = true <-> lock_held sid w0 = false) /\
     (fst (acquire_lock sid w0) = false -> snd (acquire_lock sid w0) = w0) /\
     (fst (acquire_lock sid w0) = true ->
        redis (snd (acquire_lock sid w0)) !! _lock_key sid =
          Some (mkEntry (RInt 1) (clock w0 + SESSION_LOCK_TTL_SECONDS)))) /\
  fst (acquire_lock sid (run_lock_ops ops w1)) = false.
Proof.
  split.
  - intros w0. rewrite acquire_lock_cases.
    destruct (lock_held sid w0); simpl; repeat split; try done.
    intros _. by rewrite lookup_insert_eq.
  - rewrite acquire_lock_cases in Hacq.
    destruct (lock_held sid w) eqn:Hw; [discriminate|].
    injection Hacq as <-.
    set (e := mkEntry (RInt 1) (clock w + SESSION_LOCK_TTL_SECONDS)).
    assert (Hkept : redis (run_lock_ops ops
              (set_redis (<[_lock_key sid := e]> (redis w)) w)) !! _lock_key sid = Some e).
    { apply lock_entry_kept; [done| |done]. simpl. by rewrite lookup_insert_eq. }
    rewrite acquire_lock_cases.
    assert (Hheld : lock_held sid (run_lock_ops ops
              (set_redis (<[_lock_key sid := e]> (redis w)) w)) = true).
    { unfold lock_held, redis_get. rewrite Hkept. simpl.
      destruct (_ <? _) eqn:Hc; [done|]. apply Z.ltb_ge in Hc. subst e. simpl in Hc. lia. }
    rewrite Hheld. done.
Qed.

(** ** Monad lemmas *)

Section Preserves.
Context (P : env -> Prop) (R : world -> world -> Prop) `{!PreOrder R}.

Lemma preserves_ret {A} (a : A) : preserves P R (mret a).
Proof. intros en w r w' _ H. injection H as _ <-. reflexivity. Qed.

Lemma preserves_raise {A} (e : exn) : preserves P R (raise (A:=A) e).
Proof. intros en w r w' _ H. injection H as _ <-. reflexivity. Qed.

Lemma preserves_bind {A B} (m : M A) (f : A -> M B) :
  preserves P R m -> (forall a, preserves P R (f a)) -> preserves P R (m ≫= f).
Proof.
  intros Hm Hf en w r w' HP H. unfold mbind, M_bind in H.
  destruct (m en w) as [[a|e] w1] eqn:E.
  - etransitivity; [eapply Hm; eauto|]. eapply Hf; eauto.
  - injection H as _ <-. eapply Hm; eauto.
Qed.

(** A step that always raises cuts the rest of the block. *)
Lemma preserves_bind_raise {A B} (m : M A) (f : A -> M B) :
  (forall en w, P en -> exists e w1, m en w = (Raise e, w1)) ->
  preserves P R m -> preserves P R (m ≫= f).
Proof.
  intros Hr Hm en w r w' HP H. unfold mbind, M_bind in H.
  destruct (Hr en w HP) as (e & w1 & E). rewrite E in H.
  injection H as _ <-. eapply Hm; eauto.
Qed.

(** A step that always returns [a0] continues with [f a0]. *)
Lemma preserves_bind_ok {A B} (m : M A) (a0 : A) (f : A -> M B) :
  (forall en w, P en -> exists w1, m en w = (Ok a0, w1)) ->
  preserves P R m -> preserves P R (f a0) -> preserves P R (m ≫= f).
Proof.
  intros Hr Hm Hf en w r w' HP H. unfold mbind, M_bind in H.
  destruct (Hr en w HP) as (w1 & E). rewrite E in H.
  etransitivity; [eapply Hm; eauto|]. eapply Hf; eauto.
Qed.

Lemma preserves_try_finally {A} (body : M A) (fin : M unit) :
  preserves P R body -> preserves P R fin -> preserves P R (try_finally body fin).
Proof.
  intros Hb Hf en w r w' HP H. unfold try_finally in H.
  destruct (body en w) as [r1 w1] eqn:E1. destruct (fin en w1) as [[u|e] w2] eqn:E2;
    injection H as _ <-; (etransitivity; [eapply Hb; eauto|eapply Hf; eauto]).
Qed.

Lemma preserves_try_except {A} (body : M A) (h : exn -> M A) :
  preserves P R body -> (forall e, preserves P R (h e)) -> preserves P R (try_except body h).
Proof.
  intros Hb Hh en w r w' HP H. unfold try_except in H.
  destruct (body en w) as [[a|e] w1] eqn:E1.
  - injection H as _ <-. eapply Hb; eauto.
  - etransitivity; [eapply Hb; eauto|]. eapply Hh; eauto.
Qed.

Lemma preserves_weaken (R' : world -> world -> Prop) {A} (m : M A) :
  (forall w w', R' w w' -> R w w') -> preserves P R' m -> preserves P R m.
Proof. intros Hsub Hm en w r w' HP H. apply Hsub. eapply Hm; eauto. Qed.

End Preserves.

Lemma prim_call_ro (P : env -> Prop) {A} (p : prim) (k : world -> A * world) :
  (forall w, snd (k w) = w) -> preserves P ro_rel (prim_call p k).
Proof.
  intros Hk en w r w' _ H. unfold prim_call in H.
  destruct (env_fail en p).
  - injection H as _ <-. exists [OPrim p]. done.
  - destruct (k (add_log (OPrim p) w)) as [a w1] eqn:E.
    injection H as _ <-. specialize (Hk (add_log (OPrim p) w)). rewrite E in Hk.
    simpl in Hk. subst w1. exists [OPrim p]. done.
Qed.

Lemma emit_logs (ev : sse_event) en (w : world) :
  emit ev en w = (Ok tt, add_logs [OEmit ev] w).
Proof. reflexivity. Qed.

Lemma forward_fragments_run (frags acc : list string) en (w : world) :
  forward_fragments frags acc en w =
    (Ok (acc ++ frags), add_logs (map (fun f => OEmit (EvContent f)) frags) w).
Proof.
  revert acc w. induction frags as [|f fs IH]; intros acc w; simpl.
  - by rewrite app_nil_r, add_logs_nil.
  - unfold mbind, M_bind. rewrite emit_logs, IH, add_logs_app, <- app_assoc. done.
Qed.

#[global] Instance hist_frame_preorder (sid : string) : PreOrder (hist_frame sid).
Proof.
  split.
  - intros w. done.
  - intros w1 w2 w3 (H1 & H1' & H1'') (H2 & H2' & H2''). repeat split; congruence.
Qed.

Lemma ro_hist_frame (sid : string) (w w' : world) : ro_rel w w' -> hist_frame sid w w'.
Proof. intros [l [-> _]]. done. Qed.

Lemma add_logs_hist_frame (sid : string) (l : list obs) (w : world) :
  hist_frame sid w (add_logs l w).
Proof. done. Qed.

(** ** The read-only steps of a turn *)

Lemma get_history_ro P sid : preserves P ro_rel (get_history sid).
Proof. apply prim_call_ro. done. Qed.

Lemma load_history_from_db_ro P sid limit : preserves P ro_rel (load_history_from_db sid limit).
Proof. apply prim_call_ro. done. Qed.

Lemma read_history_ro P sid : preserves P ro_rel (read_history sid).
Proof.
  unfold read_history. apply preserves_bind; [apply _|apply get_history_ro|].
  intros [|h hs]; [apply load_history_from_db_ro|apply preserves_ret; apply _].
Qed.

Lemma fill_bound_ro P body : preserves P ro_rel (_fill_bound_character_if_absent body).
Proof.
  unfold _fill_bound_character_if_absent.
  destruct (_ && _); [|apply preserves_ret; apply _].
  apply preserves_bind; [apply _|apply prim_call_ro; done|].
  intros [srow|]; [|apply preserves_ret; apply _].
  destruct (sess_character_id srow) as [cid|]; [|apply preserves_ret; apply _].
  destruct (cid =? 0); apply preserves_ret; apply _.
Qed.

Lemma build_system_prompt_ro P name cid : preserves P ro_rel (build_system_prompt name cid).
Proof.
  unfold build_system_prompt. apply preserves_bind; [apply _| |intros; apply preserves_ret; apply _].
  destruct cid; [apply prim_call_ro; done|].
  destruct (truthy name); [apply prim_call_ro; done|apply preserves_ret; apply _].
Qed.

Lemma chat_completion_ro P msgs : preserves P ro_rel (chat_completion msgs).
Proof.
  intros en w r w' _ H. unfold chat_completion in H.
  destruct (env_reply en); injection H as _ <-; exists [OPrim (PModel msgs)]; done.
Qed.

Lemma acquire_hist_frame P sid : preserves P (hist_frame sid) (acquire_session_lock sid).
Proof.
  intros en w r w' _ H. unfold acquire_session_lock in H. rewrite acquire_lock_cases in H.
  destruct (lock_held sid w); injection H as _ <-; [done|].
  split; [|done]. simpl. rewrite lookup_insert_ne; [done|].
  intros Heq. symmetry in Heq. by apply (key_ne_lock_key sid sid).
Qed.

Lemma release_hist_frame P sid : preserves P (hist_frame sid) (release_session_lock sid).
Proof.
  intros en w r w' _ H. injection H as _ <-. split; [|done]. simpl.
  rewrite lookup_delete_ne; [done|]. intros Heq. symmetry in Heq.
  by apply (key_ne_lock_key sid sid).
Qed.

Lemma emit_hist_frame P sid ev : preserves P (hist_frame sid) (emit ev).
Proof. intros en w r w' _ H. injection H as _ <-. done. Qed.

Lemma stream_and_collect_hist_frame P sid msgs :
  preserves P (hist_frame sid) (stream_and_collect msgs).
Proof.
  intros en w r w' _ H. unfold stream_and_collect in H.
  unfold mbind, M_bind in H. rewrite forward_fragments_run in H.
  destruct (snd (env_stream en)); injection H as _ <-; done.
Qed.

Ltac ro_step :=
  first
    [ apply read_history_ro | apply fill_bound_ro | apply build_system_prompt_ro
    | apply chat_completion_ro | apply get_history_ro ].

Ltac frame_step :=
  apply preserves_bind; [apply _|eapply preserves_weaken; [apply ro_hist_frame|ro_step]|intros ?].

(** The model step of [/chat] raises whatever the upstream answers. *)
Lemma chat_model_step_raises (messages : list msg) en (w : world) :
  exists e w1,
    try_except (r ← chat_completion messages; await_str r)
      (fun e => raise (HTTPException 502
                         (String.append "LLM upstream error: " (exn_str e)))) en w =
    (Raise e, w1).
Proof.
  unfold try_except, mbind, M_bind, chat_completion.
  destruct (env_reply en); simpl; eauto.
Qed.

(** Whatever the environment, [/chat] never writes the session's cache
    entry or the durable rows. *)
Lemma chat_hist_frame (P : env -> Prop) (body : chat_in) :
  preserves P (hist_frame (session_id body)) (chat body).
Proof.
  unfold chat. destruct (String.eqb _ _); [apply preserves_raise; apply _|].
  apply preserves_bind; [apply _|apply acquire_hist_frame|].
  intros [|]; cbn [negb]; [|apply preserves_raise; apply _].
  apply preserves_try_finally; [apply _| |apply release_hist_frame].
  do 3 frame_step. cbv zeta.
  apply preserves_bind_raise.
  - intros en w _. apply chat_model_step_raises.
  - apply preserves_try_except; [apply _| |intros; apply preserves_raise; apply _].
    apply preserves_bind; [apply _| |intros; apply preserves_raise; apply _].
    eapply preserves_weaken; [apply ro_hist_frame|apply chat_completion_ro].
Qed.

Lemma stream_fail_returns_none (msgs : list msg) en (w : world) (m : string) :
  snd (env_stream en) = Some m ->
  try_except (full ← stream_and_collect msgs; mret (Some full)) stream_handler en w =
    (Ok None, add_logs ([OPrim (PModelStream msgs)]
                        ++ map (fun f => OEmit (EvContent f)) (fst (env_stream en))
                        ++ [OEmit (EvError m); OEmit EvDone]) w).
Proof.
  intros Hm. unfold try_except, mbind, M_bind, stream_and_collect, mbind, M_bind.
  rewrite forward_fragments_run, Hm. simpl.
  rewrite !add_log_logs, !add_logs_app. simpl.
  unfold stream_handler, mbind, M_bind. rewrite !emit_logs. simpl.
  rewrite !add_logs_app. simpl. reflexivity.
Qed.

Lemma chat_stream_upstream_fail_frame (body : chat_in) :
  preserves (fun en => exists m, snd (env_stream en) = Some m)
    (hist_frame (session_id body)) (chat_stream body).
Proof.
  unfold chat_stream. destruct (String.eqb _ _); [apply preserves_raise; apply _|].
  apply preserves_bind; [apply _|apply acquire_hist_frame|].
  intros [|]; cbn [negb]; [|apply preserves_raise; apply _].
  unfold gen. apply preserves_try_finally; [apply _| |apply release_hist_frame].
  do 3 frame_step. cbv zeta.
  apply (preserves_bind_ok _ _ _ None).
  - intros en w [m Hm]. eexists. apply (stream_fail_returns_none _ _ _ _ Hm).
  - apply preserves_try_except; [apply _| |].
    + apply preserves_bind; [apply _|apply stream_and_collect_hist_frame|].
      intros; apply preserves_ret; apply _.
    + intros e. apply preserves_bind; [apply _|apply emit_hist_frame|intros _].
      apply preserves_bind; [apply _|apply emit_hist_frame|intros _].
      apply preserves_ret; apply _.
  - apply preserves_ret; apply _.
Qed.

(** C4. When the model call fails, a turn persists nothing: on [/chat]
    (the one-shot call raises) and on [/chat/stream] (the stream raises
    after any number of fragments), the session's cache entry after the
    turn is the one before it, and the durable rows are unchanged. *)
Theorem upstream_failure_no_persistence (body : chat_in) (en : env) (w : world)
    (m1 m2 : string)
    (Hsync : env_reply en = Fail m1) (Hstream : snd (env_stream en) = Some m2) :
  (redis (snd (chat body en w)) !! _key (session_id body) = redis w !! _key (session_id body) /\
   rows (snd (chat body en w)) = rows w) /\
  (redis (snd (chat_stream body en w)) !! _key (session_id body) = redis w !! _key (session_id body) /\
   rows (snd (chat_stream body en w)) = rows w).
Proof.
  split.
  - destruct (chat body en w) as [r w'] eqn:E.
    destruct (chat_hist_frame (fun _ => True) body en w r w' I E) as (H1 & H2 & _). done.
  - destruct (chat_stream body en w) as [r w'] eqn:E.
    destruct (chat_stream_upstream_fail_frame body en w r w' (ex_intro _ _ Hstream) E)
      as (H1 & H2 & _). done.
Qed.

Lemma try_finally_release {A} (sid : string) (body : M A) en (w : world) :
  redis (snd (try_finally body (release_session_lock sid) en w)) !! _lock_key sid = None.
Proof.
  unfold try_finally. destruct (body en w) as [r w1]. simpl. by rewrite lookup_delete_eq.
Qed.

Lemma chat_unfold_acquired (body : chat_in) en (w : world) :
  session_id body <> "" -> lock_held (session_id body) w = false ->
  exists w1, chat body en w =
    try_finally
      (history ← read_history (session_id body);
       body' ← _fill_bound_character_if_absent body;
       system_prompt ← build_system_prompt (character_name body') (character_id body');
       let messages := assemble_messages system_prompt history (message body') in
       reply ← try_except (r ← chat_completion messages; await_str r)
                 (fun e => raise (HTTPException 502
                                    (String.append "LLM upstream error: " (exn_str e))));
       append_pair (session_id body) (message body') reply;;
       add_turn (session_id body) (character_id body') (character_name body')
         (message body') reply;;
       mret reply)
      (release_session_lock (session_id body)) en w1 /\
    w1 = set_redis (<[_lock_key (session_id body) :=
            mkEntry (RInt 1) (clock w + SESSION_LOCK_TTL_SECONDS)]> (redis w)) w.
Proof.
  intros Hsid Hfree. unfold chat.
  destruct (String.eqb_spec (session_id body) "") as [Heq|_]; [done|].
  unfold mbind at 1, M_bind at 1, acquire_session_lock at 1.
  rewrite acquire_lock_cases, Hfree. eexists. split; reflexivity.
Qed.

Lemma chat_stream_unfold_acquired (body : chat_in) en (w : world) :
  session_id body <> "" -> lock_held (session_id body) w = false ->
  chat_stream body en w =
    gen body en (set_redis (<[_lock_key (session_id body) :=
            mkEntry (RInt 1) (clock w + SESSION_LOCK_TTL_SECONDS)]> (redis w)) w).
Proof.
  intros Hsid Hfree. unfold chat_stream.
  destruct (String.eqb_spec (session_id body) "") as [Heq|_]; [done|].
  unfold mbind at 1, M_bind at 1, acquire_session_lock at 1.
  rewrite acquire_lock_cases, Hfree. reflexivity.
Qed.

(** C3. Once a [/chat] or [/chat/stream] turn has acquired the session
    lock, the lock key is gone when the turn ends, whatever the outcome
    of every collaborator: success, a failing model call, or any cache or
    store read or write that raises (the environment [en] is arbitrary). *)
Theorem lock_released_on_every_exit (body : chat_in) (en : env) (w : world)
    (Hsid : session_id body <> "")
    (Hfree : lock_held (session_id body) w = false) :
  redis (snd (chat body en w)) !! _lock_key (session_id body) = None /\
  redis (snd (chat_stream body en w)) !! _lock_key (session_id body) = None.
Proof.
  split.
  - destruct (chat_unfold_acquired body en w Hsid Hfree) as (w1 & -> & _).
    apply try_finally_release.
  - rewrite (chat_stream_unfold_acquired body en w Hsid Hfree).
    unfold gen. apply try_finally_release.
Qed.

(** C8. A request with an empty [session_id] is answered with status 400,
    and a request whose session lock is live with status 409, on both
    handlers; in both cases the world is exactly as before: no history
    read, no model call, no cache or store write, no event. *)
Theorem rejected_before_side_effects (body : chat_in) (en : env) (w : world) :
  (session_id body = "" ->
     chat body en w = (Raise (HTTPException 400 "session_id required"), w) /\
     chat_stream body en w = (Raise (HTTPException 400 "session_id required"), w)) /\
  (session_id body <> "" -> lock_held (session_id body) w = true ->
     chat body en w = (Raise (HTTPException 409 "会话正在处理中，请稍后再试。"), w) /\
     chat_stream body en w = (Raise (HTTPException 409 "会话正在处理中，请稍后再试。"), w)).
Proof.
  split.
  - intros Hsid. unfold chat, chat_stream. rewrite Hsid. done.
  - intros Hsid Hheld. unfold chat, chat_stream.
    destruct (String.eqb_spec (session_id body) "") as [Heq|_]; [done|].
    unfold mbind, M_bind, acquire_session_lock.
    rewrite acquire_lock_cases, Hheld. done.
Qed.

(** ** Runs of the steps when no store primitive raises *)

Lemma bind_run {A B} (m : M A) (f : A -> M B) en (w : world) (a : A) (w' : world) :
  m en w = (Ok a, w') -> (m ≫= f) en w = f a en w'.
Proof. intros H. unfold mbind, M_bind. rewrite H. done. Qed.

Lemma prim_call_quiet {A} (p : prim) (k : world -> A * world) en (w : world) :
  quiet en -> prim_call p k en w =
    (Ok (fst (k (add_log (OPrim p) w))), snd (k (add_log (OPrim p) w))).
Proof. intros Hq. unfold prim_call. rewrite Hq. by destruct (k _). Qed.


Lemma get_history_quiet (sid : string) en (w : world) :
  quiet en -> get_history sid en w = (Ok (cached sid w), add_logs [OPrim (PGetHist sid)] w).
Proof. intros Hq. unfold get_history. by rewrite prim_call_quiet. Qed.

Lemma read_history_quiet_miss (sid : string) en (w : world) :
  quiet en -> cached sid w = [] ->
  read_history sid en w =
    (Ok (query_history sid 100 (rows w)),
     add_logs [OPrim (PGetHist sid); OPrim (PLoadDb sid 100)] w).
Proof.
  intros Hq Hm. unfold read_history.
  erewrite bind_run; [|by apply get_history_quiet]. rewrite Hm.
  unfold load_history_from_db. rewrite prim_call_quiet by done. cbn [fst snd].
  rewrite add_log_logs, add_logs_app. done.
Qed.

Lemma read_history_quiet_hit (sid : string) en (w : world) :
  quiet en -> cached sid w <> [] ->
  read_history sid en w = (Ok (cached sid w), add_logs [OPrim (PGetHist sid)] w).
Proof.
  intros Hq Hm. unfold read_history.
  erewrite bind_run; [|by apply get_history_quiet].
  destruct (cached sid w); done.
Qed.

Lemma ok_ro_of {A} (m : M A) en (w : world) :
  (forall P, preserves P ro_rel m) -> quiet en ->
  (forall w0, exists a w1, m en w0 = (Ok a, w1)) ->
  exists a l, m en w = (Ok a, add_logs l w) /\ emitted l = [].
Proof.
  intros Hro Hq Hok. destruct (Hok w) as (a & w1 & E).
  destruct (Hro (fun _ => True) en w (Ok a) w1 I E) as (l & -> & Hl).
  eauto.
Qed.

Lemma fill_bound_quiet (body : chat_in) en (w : world) :
  quiet en ->
  exists body' l, _fill_bound_character_if_absent body en w = (Ok body', add_logs l w) /\
    emitted l = [] /\ message body' = message body /\ session_id body' = session_id body.
Proof.
  intros Hq. unfold _fill_bound_character_if_absent.
  destruct (_ && _).
  - erewrite bind_run; [|by apply prim_call_quiet]. simpl.
    destruct (sessions w !! session_id body) as [srow|];
      [destruct (sess_character_id srow) as [cid|]; [destruct (cid =? 0)|]|];
      eexists _, [OPrim (PGetSession (session_id body))]; done.
  - exists body, []. rewrite add_logs_nil. done.
Qed.

Lemma build_system_prompt_quiet name cid en (w : world) :
  quiet en ->
  exists sp l, build_system_prompt name cid en w = (Ok sp, add_logs l w) /\ emitted l = [].
Proof.
  intros Hq. apply ok_ro_of; [intros P; apply build_system_prompt_ro|done|].
  intros w0. unfold build_system_prompt.
  destruct cid as [cid|]; [|destruct (truthy name)];
    (erewrite bind_run; [|first [by apply prim_call_quiet | reflexivity]]); eauto.
Qed.


Lemma append_pair_quiet (sid u a : string) en (w : world) :
  quiet en ->
  append_pair sid u a en w =
    (Ok tt, cache_write sid (truncated (cached sid w ++ [mkMsg "user" u; mkMsg "assistant" a]))
              (add_logs [OPrim (PGetHist sid);
                         OPrim (PSetHist sid (truncated (cached sid w ++
                                  [mkMsg "user" u; mkMsg "assistant" a])))] w)).
Proof.
  intros Hq. unfold append_pair.
  erewrite bind_run; [|by apply get_history_quiet].
  unfold set_history. rewrite prim_call_quiet by done. cbn [fst snd].
  rewrite !add_log_logs, !add_logs_app. reflexivity.
Qed.




Lemma read_history_quiet (sid : string) en (w : world) :
  quiet en ->
  exists h l, read_history sid en w = (Ok h, add_logs l w) /\ emitted l = [].
Proof.
  intros Hq. apply ok_ro_of; [intros P; apply read_history_ro|done|].
  intros w0. destruct (cached sid w0) eqn:E.
  - rewrite read_history_quiet_miss by done. eauto.
  - rewrite read_history_quiet_hit by congruence. eauto.
Qed.




Lemma cached_cache_write (sid : string) (h : list msg) (w : world) :
  0 < TTL_SECONDS -> cached sid (cache_write sid h w) = h.
Proof.
  intros Ht. unfold cached, redis_get, cache_write. simpl.
  rewrite lookup_insert_eq. simpl.
  destruct (Z.ltb_spec (clock w) (clock w + TTL_SECONDS)); [done|lia].
Qed.

Lemma always_raises_raise {A} (e : exn) : always_raises (raise (A:=A) e).
Proof. intros en w. eauto. Qed.

Lemma always_raises_bind_l {A B} (m : M A) (f : A -> M B) :
  always_raises m -> always_raises (m ≫= f).
Proof.
  intros Hm en w. destruct (Hm en w) as (e & w' & E).
  unfold mbind, M_bind. rewrite E. eauto.
Qed.

Lemma always_raises_bind_r {A B} (m : M A) (f : A -> M B) :
  (forall a, always_raises (f a)) -> always_raises (m ≫= f).
Proof.
  intros Hf en w. unfold mbind, M_bind.
  destruct (m en w) as [[a|e] w1]; [apply Hf|eauto].
Qed.

Lemma always_raises_try_finally {A} (body : M A) (fin : M unit) :
  always_raises body -> always_raises (try_finally body fin).
Proof.
  intros Hb en w. unfold try_finally. destruct (Hb en w) as (e & w1 & ->).
  destruct (fin en w1) as [[u|e'] w2]; eauto.
Qed.

(** No run of [/chat] returns a reply. *)
Lemma chat_always_raises (body : chat_in) : always_raises (chat body).
Proof.
  unfold chat. destruct (String.eqb _ _); [apply always_raises_raise|].
  apply always_raises_bind_r. intros [|]; cbn [negb]; [|apply always_raises_raise].
  apply always_raises_try_finally.
  do 3 (apply always_raises_bind_r; intros ?). cbv zeta.
  apply always_raises_bind_l. intros en w. apply chat_model_step_raises.
Qed.

(** A [/chat] turn that acquired the lock, with a working store, answers
    502. *)
Lemma chat_run_quiet (body : chat_in) en (w : world) :
  quiet en -> session_id body <> "" -> lock_held (session_id body) w = false ->
  fst (chat body en w) =
    Raise (HTTPException 502 (String.append "LLM upstream error: "
                                (upstream_failure_text (env_reply en)))).
Proof.
  intros Hq Hsid Hfree.
  destruct (chat_unfold_acquired body en w Hsid Hfree) as (w1 & -> & _).
  unfold try_finally.
  destruct (read_history_quiet (session_id body) en w1 Hq) as (h & l1 & E1 & _).
  erewrite bind_run; [|exact E1]. cbv beta.
  destruct (fill_bound_quiet body en (add_logs l1 w1) Hq) as (b' & l2 & E2 & _).
  erewrite bind_run; [|exact E2]. cbv beta.
  destruct (build_system_prompt_quiet (character_name b') (character_id b') en
              (add_logs l2 (add_logs l1 w1)) Hq) as (sp & l3 & E3 & _).
  erewrite bind_run; [|exact E3]. cbv beta zeta.
  unfold mbind, M_bind, try_except, chat_completion, await_str, raise.
  destruct (env_reply en); reflexivity.
Qed.

(** C7 (code bug). A [/chat] turn never succeeds: [main.py] awaits the
    [str] that the synchronous [qiniu_llm.chat_completion] returns, the
    [await] raises [TypeError], and the handler turns it into a 502. So
    [append_pair] never runs, and a turn that started on a cache miss
    leaves the cache as it was (empty) instead of holding the new
    user/assistant pair. For every environment the result is never a
    reply, and the session's cache entry and the durable rows are those
    before the turn; with a working store, a non-empty session id, a free
    lock and a model that answers, the turn answers 502 with the
    [TypeError] text. *)
Theorem chat_never_caches_new_pair (body : chat_in) (en : env) (w : world) :
  (forall reply, fst (chat body en w) <> Ok reply) /\
  redis (snd (chat body en w)) !! _key (session_id body) = redis w !! _key (session_id body) /\
  rows (snd (chat body en w)) = rows w /\
  (quiet en -> session_id body <> "" -> lock_held (session_id body) w = false ->
   forall reply, env_reply en = Reply reply ->
   fst (chat body en w) =
     Raise (HTTPException 502 "LLM upstream error: object str can't be used in 'await' expression")).
Proof.
  destruct (chat body en w) as [r w'] eqn:E.
  destruct (chat_hist_frame (fun _ => True) body en w r w' I E) as (H1 & H2 & _).
  split; [|split; [exact H1|split; [exact H2|]]].
  - intros reply. destruct (chat_always_raises body en w) as (e & w'' & E').
    rewrite E in E'. injection E' as -> _. discriminate.
  - intros Hq Hsid Hfree reply Hr. rewrite <- E.
    rewrite (chat_run_quiet body en w Hq Hsid Hfree), Hr. reflexivity.
Qed.








(** ** The end of a streaming turn, in every environment *)

#[global] Instance done_free_preorder : PreOrder done_free.
Proof.
  split.
  - intros w. exists []. rewrite app_nil_r. split; [done|]. simpl. tauto.
  - intros w1 w2 w3 (l1 & H1 & N1) (l2 & H2 & N2). exists (l1 ++ l2).
    rewrite H2, H1, app_assoc. split; [done|]. rewrite emitted_app, in_app_iff. tauto.
Qed.













Lemma prompt_parts_shape (c : character_info) :
  prompt_parts c = name_then_present_attributes c.
Proof.
  unfold prompt_parts, name_then_present_attributes. cbn [List.filter].
  destruct (truthy (background c)), (truthy (personality c)),
    (truthy (skills c)), (truthy (current_playstyle c)); reflexivity.
Qed.

Lemma quiet_prim_call {A} (p : prim) (k : world -> A * world) en (w : world) :
  quiet en -> prim_call p k en w = let '(a, w1) := k (add_log (OPrim p) w) in (Ok a, w1).
Proof. intros Hq. unfold prim_call. by rewrite Hq. Qed.

(** C10 (amended). Under a store that does not raise, the system prompt
    of a turn is the generic persona when no character is resolved: the
    request's [character_id] is looked up if given (with no fallback to
    the name), else the name if non-empty, else the session's bound id if
    non-zero. Otherwise it is the name line, which is always present even
    for an empty name, then the non-empty attributes among background,
    personality, skills and current playstyle in that order, then the
    fixed instruction, joined by newlines. *)
Theorem system_prompt_policy (body : chat_in) (en : env) (w : world) (Hq : quiet en) :
  fst ((b ← _fill_bound_character_if_absent body;
        build_system_prompt (character_name b) (character_id b)) en w) =
  Ok (match resolved_character body w with
      | None => generic_prompt
      | Some c => String.concat newline (name_then_present_attributes c)
      end).
Proof.
  assert (Hr : forall o, render_prompt o =
            match o with
            | None => generic_prompt
            | Some c => String.concat newline (name_then_present_attributes c)
            end)
    by (intros [c|]; simpl; [by rewrite prompt_parts_shape|done]).
  rewrite <- Hr.
  destruct body as [msg sid cname cid mdl].
  unfold resolved_character, bound_character_id, _fill_bound_character_if_absent,
    build_system_prompt, mbind, M_bind, mret, M_ret.
  cbn [character_id character_name session_id].
  destruct cid as [cid|].
  - rewrite (bool_decide_eq_false_2 (Some cid = None)) by done.
    cbn -[render_prompt prim_call].
    rewrite quiet_prim_call by exact Hq. done.
  - rewrite (bool_decide_eq_true_2 (@None Z = None)) by done.
    destruct (truthy cname) eqn:Ht; cbn -[render_prompt prim_call].
    + rewrite Ht, quiet_prim_call by exact Hq. done.
    + rewrite quiet_prim_call by exact Hq. cbn -[render_prompt prim_call].
      destruct (sessions w !! sid) as [srow|]; cbn -[render_prompt prim_call]; [|by rewrite Ht].
      destruct (sess_character_id srow) as [c|]; cbn -[render_prompt prim_call]; [|by rewrite Ht].
      destruct (Z.eqb c 0); cbn -[render_prompt prim_call]; [by rewrite Ht|].
      rewrite quiet_prim_call by exact Hq. done.
Qed.

(** With at least one turn allowed, [set_history] keeps exactly the
    last [2 * MAX_TURNS] entries of a longer history. *)
Lemma truncated_keeps_most_recent (h : list msg) :
  0 < MAX_TURNS -> truncated h = drop (length h - Z.to_nat (2 * MAX_TURNS)) h.
Proof.
  intros Hm. unfold truncated, py_slice_from.
  destruct (Z.gtb_spec (Z.of_nat (length h)) (MAX_TURNS * 2)) as [Hgt|Hle].
  - destruct (Z.ltb_spec (- MAX_TURNS * 2) 0) as [_|]; [|lia].
    f_equal. lia.
  - replace (length h - Z.to_nat (2 * MAX_TURNS))%nat with 0%nat by lia.
    by rewrite drop_0.
Qed.

(** ** [str.strip()] *)

Lemma strip_front_suffix w2 w3 (l : list Ascii.ascii) :
  exists j, l = j ++ strip_front w2 w3 l.
Proof.
  induction l as [l IH] using (well_founded_induction (well_founded_ltof _ (@length _))).
  unfold ltof in IH.
  destruct l as [|c1 r1]; [by exists []|]. simpl.
  destruct (ws1 c1).
  { destruct (IH r1) as [j Hj]; [simpl; lia|]. exists (c1 :: j). simpl. congruence. }
  destruct r1 as [|c2 r2]; [by exists []|].
  destruct (w2 c1 c2).
  { destruct (IH r2) as [j Hj]; [simpl; lia|]. exists (c1 :: c2 :: j). simpl. congruence. }
  destruct r2 as [|c3 r3]; [by exists []|].
  destruct (w3 c1 c2 c3); [|by exists []].
  destruct (IH r3) as [j Hj]; [simpl; lia|]. exists (c1 :: c2 :: c3 :: j). simpl. congruence.
Qed.

Lemma strip_front_length w2 w3 (l : list Ascii.ascii) :
  (length (strip_front w2 w3 l) <= length l)%nat.
Proof.
  destruct (strip_front_suffix w2 w3 l) as [j Hj].
  rewrite Hj at 2. rewrite length_app. lia.
Qed.

Lemma strip_front_idem w2 w3 (l : list Ascii.ascii) :
  strip_front w2 w3 (strip_front w2 w3 l) = strip_front w2 w3 l.
Proof.
  induction l as [l IH] using (well_founded_induction (well_founded_ltof _ (@length _))).
  unfold ltof in IH.
  destruct l as [|c1 r1]; [done|]. simpl.
  destruct (ws1 c1) eqn:E1; [apply IH; simpl; lia|].
  destruct r1 as [|c2 r2]; [simpl; by rewrite E1|].
  destruct (w2 c1 c2) eqn:E2; [apply IH; simpl; lia|].
  destruct r2 as [|c3 r3]; [simpl; by rewrite E1, E2|].
  destruct (w3 c1 c2 c3) eqn:E3; [apply IH; simpl; lia|].
  simpl. by rewrite E1, E2, E3.
Qed.

Lemma strip_front_fixed_cons w2 w3 c1 r :
  strip_front w2 w3 (c1 :: r) = c1 :: r ->
  ws1 c1 = false /\
  forall c2 r2, r = c2 :: r2 -> w2 c1 c2 = false /\
    forall c3 r3, r2 = c3 :: r3 -> w3 c1 c2 c3 = false.
Proof.
  intros Hfix.
  assert (Hlen : forall x, (length x < length (c1 :: r))%nat ->
            strip_front w2 w3 x <> c1 :: r).
  { intros x Hx Heq. pose proof (strip_front_length w2 w3 x). rewrite Heq in H. lia. }
  simpl in Hfix. destruct (ws1 c1).
  { exfalso. apply (Hlen r); [simpl; lia|done]. }
  split; [done|]. intros c2 r2 ->. destruct (w2 c1 c2).
  { exfalso. apply (Hlen r2); [simpl; lia|done]. }
  split; [done|]. intros c3 r3 ->. destruct (w3 c1 c2 c3); [|done].
  exfalso. apply (Hlen r3); [simpl; lia|done].
Qed.

(** A prefix of a text with no leading whitespace has none either. *)
Lemma strip_front_fixed_prefix w2 w3 (p q : list Ascii.ascii) :
  strip_front w2 w3 (p ++ q) = p ++ q -> strip_front w2 w3 p = p.
Proof.
  intros Hfix.
  destruct p as [|c1 p1]; [done|].
  destruct (strip_front_fixed_cons _ _ _ _ Hfix) as [E1 H2].
  destruct p1 as [|c2 p2]; [simpl; by rewrite E1|].
  destruct (H2 c2 (p2 ++ q) eq_refl) as [E2 H3].
  destruct p2 as [|c3 p3]; [simpl; by rewrite E1, E2|].
  specialize (H3 c3 (p3 ++ q) eq_refl).
  simpl. by rewrite E1, E2, H3.
Qed.

Lemma rstrip_l_prefix (l : list Ascii.ascii) : exists j, l = rstrip_l l ++ j.
Proof.
  unfold rstrip_l.
  destruct (strip_front_suffix (fun a b => ws2 b a) (fun a b c => ws3 c b a) (rev l)) as [j Hj].
  exists (rev j). rewrite <- rev_app_distr, <- Hj. by rewrite rev_involutive.
Qed.

Lemma rstrip_l_idem (l : list Ascii.ascii) : rstrip_l (rstrip_l l) = rstrip_l l.
Proof. unfold rstrip_l. by rewrite rev_involutive, strip_front_idem. Qed.

(** [str.strip()] is idempotent. *)
Lemma py_strip_idem (s : string) : py_strip (py_strip s) = py_strip s.
Proof.
  unfold py_strip. rewrite list_ascii_of_string_of_list_ascii. f_equal.
  set (Y := lstrip_l (list_ascii_of_string s)).
  assert (HY : lstrip_l Y = Y) by apply strip_front_idem.
  destruct (rstrip_l_prefix Y) as [j Hj].
  assert (HL : lstrip_l (rstrip_l Y) = rstrip_l Y).
  { apply (strip_front_fixed_prefix _ _ _ j). rewrite <- Hj. exact HY. }
  rewrite HL. apply rstrip_l_idem.
Qed.

(** X: [_choose_model] never returns a blank, padded or placeholder
    name, and cleaning its own answer changes nothing. *)
Theorem choose_model_clean (m : option string) :
  match _choose_model m with
  | None => True
  | Some v => v <> "" /\ py_strip v = v /\ lower_is_string v = false
  end /\
  _choose_model (_choose_model m) = _choose_model m.
Proof.
  destruct m as [m|]; [|done]. simpl.
  destruct (String.eqb (py_strip m) "") eqn:E1; simpl; [done|].
  destruct (lower_is_string (py_strip m)) eqn:E2; simpl; [done|].
  rewrite py_strip_idem, E1, E2. simpl.
  split; [|done]. split; [|done]. intros H. rewrite H in E1. discriminate.
Qed.

(** ** [app/qiniu_llm.py] *)

Lemma relay_done_split decode parse (lines : list string) :
  QiniuLLM.relay decode parse lines =
    List.filter (fun o => negb (QiniuLLM.is_done o)) (QiniuLLM.relay decode parse lines) ++
    (if existsb QiniuLLM.is_done_line lines
     then [QiniuLLM.OutDone; QiniuLLM.OutDone] else [QiniuLLM.OutDone]).
Proof.
  induction lines as [|raw rest IH]; [done|].
  cbn [QiniuLLM.relay existsb]. unfold QiniuLLM.is_done_line at 1.
  destruct (String.eqb raw "") eqn:E0; [exact IH|]. cbn [negb andb].
  destruct (String.prefix "data: " raw); cbn [andb]; [|exact IH].
  destruct (String.eqb (QiniuLLM.bytes_strip _) "[DONE]"); [done|]. cbn [orb].
  destruct (parse _) as [[d|]|]; [|exact IH|].
  - destruct (String.eqb d ""); [exact IH|]. simpl. f_equal. exact IH.
  - simpl. f_equal. exact IH.
Qed.


Lemma relay_err_no_read_error decode parse (lines : list string) :
  QiniuLLM.relay_err decode parse lines None = (QiniuLLM.relay decode parse lines, None).
Proof.
  induction lines as [|raw rest IH]; [done|]. simpl.
  destruct (String.eqb raw ""); [exact IH|].
  destruct (String.prefix "data: " raw); [|exact IH].
  destruct (String.eqb _ "[DONE]"); [done|].
  destruct (parse _) as [[d|]|]; [destruct (String.eqb d "")| |]; rewrite ?IH; done.
Qed.


(** X: nothing the upstream sends after its [data: [DONE]] line reaches
    the caller: the relay stops reading there. *)
Theorem qiniu_relay_ignores_after_done decode parse (pre post : list string) (raw : string)
    (Hdone : QiniuLLM.is_done_line raw = true) :
  QiniuLLM.relay decode parse (pre ++ raw :: post) = QiniuLLM.relay decode parse (pre ++ [raw]).
Proof.
  induction pre as [|x pre IH].
  - unfold QiniuLLM.is_done_line in Hdone. simpl.
    destruct (String.eqb raw ""); [discriminate|].
    destruct (String.prefix "data: " raw); [|discriminate].
    simpl in Hdone. by rewrite Hdone.
  - simpl. rewrite IH. done.
Qed.

(** ** [app/redis_cache.py] *)

(** X: a history written by [set_history] reads back, truncated, until
    its TTL runs out and as the empty history from then on; no other key
    (other sessions' histories, any lock) is touched. *)
Theorem set_history_round_trip (sid : string) (h : list msg) (en : env) (w : world) (d : N)
    (Hq : quiet en) (Httl : 0 < TTL_SECONDS) :
  fst (get_history sid en (tick d (snd (set_history sid h en w)))) =
    Ok (if Z.of_N d <? TTL_SECONDS then truncated h else []) /\
  (forall k, k <> _key sid -> redis (snd (set_history sid h en w)) !! k = redis w !! k).
Proof.
  unfold set_history. rewrite prim_call_quiet by exact Hq. cbn [fst snd].
  split.
  - rewrite get_history_quiet by exact Hq. cbn [fst]. f_equal.
    unfold cached, redis_get. simpl. rewrite lookup_insert_eq. simpl.
    fold (truncated h).
    destruct (Z.ltb_spec (Z.of_N d) TTL_SECONDS);
      destruct (Z.ltb_spec (clock w + Z.of_N d) (clock w + TTL_SECONDS)); try lia; done.
  - intros k Hk. simpl. rewrite lookup_insert_ne; [done|]. congruence.
Qed.

(** X: with [HISTORY_MAX_TURNS >= 1], [append_pair] leaves in the cache
    the last [2 * MAX_TURNS] entries of the cached history followed by the
    new user and assistant messages, so the cache never holds more than
    [2 * MAX_TURNS] entries. *)
Theorem append_pair_keeps_last_turns (sid u a : string) (en : env) (w : world)
    (Hq : quiet en) (Hmax : 0 < MAX_TURNS) (Httl : 0 < TTL_SECONDS) :
  cached sid (snd (append_pair sid u a en w)) =
    drop (length (cached sid w ++ [mkMsg "user" u; mkMsg "assistant" a])
          - Z.to_nat (2 * MAX_TURNS))
      (cached sid w ++ [mkMsg "user" u; mkMsg "assistant" a]) /\
  (length (cached sid (snd (append_pair sid u a en w))) <= Z.to_nat (2 * MAX_TURNS))%nat.
Proof.
  rewrite append_pair_quiet by exact Hq. cbn [snd].
  rewrite cached_cache_write by exact Httl.
  rewrite truncated_keeps_most_recent by exact Hmax.
  split; [done|]. rewrite length_drop. lia.
Qed.

(** ** [app/crud.py]: [list_messages], [delete_session], [rename_session] *)











(** X: after a session is deleted, a new turn on the same id starts from
    nothing: with a working store [read_history] answers the empty
    history, and the session lock is free. *)
Theorem remove_session_then_read_history (sid : string) (en : env) (w : world)
    (Hq : quiet en) (Hex : sessions w !! sid <> None) :
  fst (read_history sid en (snd (remove_session sid w))) = Ok [] /\
  lock_held sid (snd (remove_session sid w)) = false.
Proof.
  unfold remove_session, delete_session.
  destruct (sessions w !! sid) as [s0|] eqn:Hs; [|done]. simpl.
  split.
  - unfold read_history, mbind, M_bind.
    rewrite get_history_quiet by exact Hq.
    assert (Hc : cached sid (release_lock sid (delete_history sid
               (set_db (List.filter (fun r => negb (String.eqb (row_session_id r) sid)) (rows w))
                  (delete sid (sessions w)) w))) = []).
    { unfold cached, redis_get. simpl.
      rewrite lookup_delete_ne; [rewrite lookup_delete_eq; done|].
      unfold _lock_key, _key. intros H; discriminate. }
    rewrite Hc. unfold load_history_from_db. rewrite prim_call_quiet by exact Hq. simpl.
    unfold query_history. f_equal.
    assert (Hnil : forall l, filter (fun r => row_session_id r = sid)
              (List.filter (fun r => negb (String.eqb (row_session_id r) sid)) l) = []).
    { clear. intros l. induction l as [|r t IH]; [done|]. simpl.
      destruct (String.eqb_spec (row_session_id r) sid); simpl; [exact IH|].
      rewrite filter_cons_False by done. exact IH. }
    simpl in Hnil |- *. rewrite Hnil. done.
  - unfold lock_held, redis_get. simpl. by rewrite lookup_delete_eq.
Qed.

Lemma split_chars_short (n : nat) (l : list Ascii.ascii) :
  (char_count_l l <= n)%nat -> split_chars n l = (l, []).
Proof.
  revert n. induction l as [|c r IH]; intros n Hl; [done|]. simpl in Hl |- *.
  destruct (is_cont c).
  - rewrite IH by lia. done.
  - destruct n as [|n']; [lia|]. rewrite IH by lia. done.
Qed.

(** A text of at most [n] characters is stored unchanged. *)
Lemma pg_varchar_short (n : nat) (s : string) :
  (char_length s <= n)%nat -> pg_varchar n s = Some s.
Proof.
  intros Hl. unfold pg_varchar. rewrite split_chars_short by exact Hl. simpl.
  by rewrite string_of_list_ascii_of_string.
Qed.

Lemma pg_varchar_none_long (n : nat) (s : string) :
  pg_varchar n s = None -> (n < char_length s)%nat.
Proof.
  intros Hv. destruct (Nat.lt_ge_cases n (char_length s)) as [H|H]; [exact H|].
  rewrite pg_varchar_short in Hv by exact H. discriminate.
Qed.


(** ** [main.py]: [create_character], [bind_character] *)

Lemma find_app_none {A} (f : A -> bool) (l1 l2 : list A) :
  find f l1 = None -> find f (l1 ++ l2) = find f l2.
Proof.
  induction l1 as [|x t IH]; [done|]. simpl.
  destruct (f x); [discriminate|exact IH].
Qed.

(** X: [POST /characters], one request at a time, keeps character names
    unique as long as the name has at most 255 characters. A taken name
    answers 409, a NUL character in a field fails in the driver, and a
    name of more than 255 characters that does not end in spaces only
    fails on the [varchar(255)] column; these change nothing. Otherwise
    the new character is appended with the stored name, which is the
    name itself when it has at most 255 characters (a longer one lost its
    trailing spaces, and may then equal a name already taken); the id
    lookup finds the new character when its id is fresh, and, for a name
    of at most 255 characters, the name lookup does too. Concurrent
    requests are not modelled: two of them can both pass the name
    check. *)
Theorem create_character_unique_names (new_id : Z) (body : character_in) (w : world)
    (Huniq : NoDup (map char_name (characters w))) :
  match create_character new_id body w with
  | (Raise e, w') =>
      w' = w /\
      ((e = HTTPException 409 "character name already exists" /\
        exists c, In c (characters w) /\ char_name c = ci_name body) \/
       (e = ValueError nul_message /\
        (contains_nul (ci_name body) || opt_contains_nul (ci_background body)
         || opt_contains_nul (ci_personality body) || opt_contains_nul (ci_skills body)
         || opt_contains_nul (ci_current_playstyle body)) = true) \/
       (e = DataError "value too long for type character varying(255)" /\
        (255 < char_length (ci_name body))%nat))
  | (Ok (i, n), w') =>
      i = new_id /\ pg_varchar 255 (ci_name body) = Some n /\
      rows w' = rows w /\ sessions w' = sessions w /\ redis w' = redis w /\
      exists c, characters w' = characters w ++ [c] /\ char_id c = new_id /\
        char_name c = n /\
        (~ In new_id (map char_id (characters w)) ->
         get_character_by_id (characters w') new_id = Some c) /\
        ((char_length (ci_name body) <= 255)%nat ->
         n = ci_name body /\ NoDup (map char_name (characters w')) /\
         get_character_by_name (characters w') n = Some c)
  end.
Proof.
  unfold create_character.
  destruct (contains_nul (ci_name body)) eqn:Hn0.
  { split; [done|]. right; left. split; done. }
  destruct (get_character_by_name (characters w) (ci_name body)) as [c|] eqn:Hf.
  { unfold get_character_by_name in Hf.
    apply find_some in Hf as [Hin Heq]. apply String.eqb_eq in Heq.
    split; [done|]. left. split; [done|]. by exists c. }
  destruct (opt_contains_nul (ci_background body) || opt_contains_nul (ci_personality body)
            || opt_contains_nul (ci_skills body) || opt_contains_nul (ci_current_playstyle body))
    eqn:Hn1.
  { split; [done|]. right; left. split; [done|].
    cbn [orb]. exact Hn1. }
  destruct (pg_varchar 255 (ci_name body)) as [name|] eqn:Hv.
  2:{ split; [done|]. right; right. split; [done|]. by apply pg_varchar_none_long. }
  unfold get_character_by_name in Hf. simpl.
  do 5 (split; [done|]).
  eexists. split; [done|]. split; [done|]. split; [done|]. split.
  { intros Hfresh. unfold get_character_by_id.
    assert (Hn : find (fun c => Z.eqb (char_id c) new_id) (characters w) = None).
    { destruct (find (fun c => Z.eqb (char_id c) new_id) (characters w)) as [c|] eqn:Hc; [|done].
      exfalso. apply find_some in Hc as [Hin Heq]. apply Z.eqb_eq in Heq. apply Hfresh.
      apply in_map_iff. by exists c. }
    rewrite find_app_none by exact Hn. simpl. by rewrite Z.eqb_refl. }
  intros Hl. rewrite pg_varchar_short in Hv by exact Hl. injection Hv as <-.
  split; [done|]. split.
  { rewrite map_app. simpl. apply NoDup_app. split; [done|]. split.
    - intros x Hx Hy. apply list_elem_of_singleton in Hy as ->.
      apply list_elem_of_In, in_map_iff in Hx as [c [Hc Hin]].
      pose proof (find_none _ _ Hf c Hin) as Hn. simpl in Hn.
      rewrite Hc, String.eqb_refl in Hn. discriminate.
    - apply NoDup_singleton. }
  unfold get_character_by_name. rewrite find_app_none by exact Hf. simpl.
  by rewrite String.eqb_refl.
Qed.

(** ** Session bindings across a turn *)

#[global] Instance binding_frame_preorder : PreOrder binding_frame.
Proof.
  split.
  - intros w sid s Hs. by exists s.
  - intros w1 w2 w3 H12 H23 sid s Hs.
    destruct (H12 sid s Hs) as (s2 & Hs2 & Hc2).
    destruct (H23 sid s2 Hs2) as (s3 & Hs3 & Hc3).
    exists s3. split; [done|congruence].
Qed.

Lemma binding_frame_same_sessions (w w' : world) :
  sessions w' = sessions w -> binding_frame w w'.
Proof. intros Heq sid s Hs. exists s. by rewrite Heq. Qed.

Lemma ro_binding (w w' : world) : ro_rel w w' -> binding_frame w w'.
Proof. intros [l [-> _]]. by apply binding_frame_same_sessions. Qed.

Lemma prim_call_binding (P : env -> Prop) {A} (p : prim) (k : world -> A * world) :
  (forall w, binding_frame w (snd (k w))) -> preserves P binding_frame (prim_call p k).
Proof.
  intros Hk en w r w' _ H. unfold prim_call in H.
  destruct (env_fail en p).
  - injection H as _ <-. by apply binding_frame_same_sessions.
  - destruct (k (add_log (OPrim p) w)) as [a w1] eqn:E. injection H as _ <-.
    transitivity (add_log (OPrim p) w); [by apply binding_frame_same_sessions|].
    specialize (Hk (add_log (OPrim p) w)). rewrite E in Hk. exact Hk.
Qed.

Lemma append_pair_binding P sid u a : preserves P binding_frame (append_pair sid u a).
Proof.
  unfold append_pair. apply preserves_bind; [apply _| |intros h].
  - eapply preserves_weaken; [apply ro_binding|apply get_history_ro].
  - unfold set_history. apply prim_call_binding. intros w.
    by apply binding_frame_same_sessions.
Qed.

Lemma add_turn_binding P sid cid cname u a :
  preserves P binding_frame (add_turn sid cid cname u a).
Proof.
  unfold add_turn. apply prim_call_binding. intros w sid' s Hs. simpl.
  unfold upsert_session.
  destruct (String.eq_dec sid' sid) as [->|Hne].
  - rewrite Hs. eexists. split; [apply lookup_insert_eq|done].
  - exists s. destruct (sessions w !! sid); rewrite lookup_insert_ne by congruence; done.
Qed.

Lemma acquire_binding P sid : preserves P binding_frame (acquire_session_lock sid).
Proof.
  intros en w r w' _ H. unfold acquire_session_lock in H. rewrite acquire_lock_cases in H.
  destruct (lock_held sid w); injection H as _ <-; by apply binding_frame_same_sessions.
Qed.

Lemma release_binding P sid : preserves P binding_frame (release_session_lock sid).
Proof. intros en w r w' _ H. injection H as _ <-. by apply binding_frame_same_sessions. Qed.

Lemma emit_binding P ev : preserves P binding_frame (emit ev).
Proof. intros en w r w' _ H. injection H as _ <-. by apply binding_frame_same_sessions. Qed.

Lemma stream_and_collect_binding P msgs : preserves P binding_frame (stream_and_collect msgs).
Proof.
  intros en w r w' _ H. unfold stream_and_collect in H.
  unfold mbind, M_bind in H. rewrite forward_fragments_run in H.
  destruct (snd (env_stream en)); injection H as _ <-; by apply binding_frame_same_sessions.
Qed.

Ltac binding_step :=
  first
    [ progress cbv zeta
    | apply acquire_binding | apply release_binding | apply append_pair_binding
    | apply add_turn_binding | apply emit_binding | apply stream_and_collect_binding
    | eapply preserves_weaken; [apply ro_binding|ro_step]
    | apply preserves_ret; apply _ | apply preserves_raise; apply _
    | apply preserves_try_finally; [apply _| |]
    | apply preserves_try_except; [apply _| |intros ?]
    | apply preserves_bind; [apply _| |intros ?]
    | match goal with
      | |- preserves _ _ (if ?b then _ else _) => destruct b
      | |- preserves _ _ (match ?x with _ => _ end) => destruct x
      end ].

Lemma chat_binding (body : chat_in) : preserves (fun _ => True) binding_frame (chat body).
Proof. unfold chat. repeat binding_step. Qed.

Lemma chat_stream_binding (body : chat_in) :
  preserves (fun _ => True) binding_frame (chat_stream body).
Proof. unfold chat_stream, gen. repeat binding_step. Qed.

(** X: no [/chat] or [/chat/stream] turn ever rebinds a session, whatever
    the store and the model do (raise or not): every session that existed
    before still exists afterwards with the same bound character. *)
Theorem turns_keep_session_bindings (body : chat_in) (en : env) (w : world) :
  binding_frame w (snd (chat body en w)) /\ binding_frame w (snd (chat_stream body en w)).
Proof.
  split.
  - apply (chat_binding body en w (fst (chat body en w)) _ I). by destruct (chat body en w).
  - apply (chat_stream_binding body en w (fst (chat_stream body en w)) _ I).
    by destruct (chat_stream body en w).
Qed.

(** On a session that does not exist yet, [_fill_bound_character_if_absent]
    keeps the request as it is. *)
(** ** [bind_character] and the next turn's prompt *)




(** ** [main.py]: [list_models] *)

Lemma str_in_In (x : string) (l : list string) : str_in x l = true <-> In x l.
Proof.
  unfold str_in. rewrite existsb_exists. split.
  - intros [y [Hy Heq]]. apply String.eqb_eq in Heq. by subst.
  - intros Hx. exists x. split; [done|]. apply String.eqb_refl.
Qed.

(** X: [GET /models] always lists its default model. Every entry has its
    id as label and is marked recommended exactly when it is the default.
    Every other entry is a non-empty, stripped item of [MODELS_CURATED],
    and, when verification ran against the upstream list, one the
    upstream listed. *)
Theorem list_models_shape (curated_env default_env verify_env base_env : option string)
    (upstream_ids : option (list string)) :
  let '(d, ms) := list_models curated_env default_env verify_env base_env upstream_ids in
  d = getenv_default default_env "deepseek-v3" /\
  In d (map me_id ms) /\
  forall e, In e ms ->
    me_label e = me_id e /\ me_recommended e = String.eqb (me_id e) d /\
    (me_id e <> d ->
     me_id e <> "" /\ py_strip (me_id e) = me_id e /\
     In (me_id e) (map py_strip (py_split_comma (getenv_default curated_env "deepseek-v3"))) /\
     (String.eqb (getenv_default verify_env "0") "1" = true ->
      rstrip_slash (getenv_default base_env "") <> "" ->
      forall ids, upstream_ids = Some ids -> In (me_id e) ids)).
Proof.
  unfold list_models. cbv zeta.
  set (pieces := map py_strip (py_split_comma (getenv_default curated_env "deepseek-v3"))).
  set (curated := List.filter (fun m => negb (String.eqb m "")) pieces).
  set (d := getenv_default default_env "deepseek-v3").
  set (verify := String.eqb (getenv_default verify_env "0") "1").
  set (base := rstrip_slash (getenv_default base_env "")).
  set (avail := if verify then if negb (String.eqb base "") then
                  match upstream_ids with
                  | Some ids => List.filter (fun m => str_in m ids) curated
                  | None => curated end else curated else curated).
  set (models0 := map (fun m => mkModelEntry m m (String.eqb m d))
                    (List.filter (fun m => str_in m avail) curated)).
  assert (H0 : forall e, In e models0 ->
            me_label e = me_id e /\ me_recommended e = String.eqb (me_id e) d /\
            me_id e <> "" /\ py_strip (me_id e) = me_id e /\ In (me_id e) pieces /\
            (verify = true -> base <> "" -> forall ids, upstream_ids = Some ids ->
             In (me_id e) ids)).
  { intros e He. subst models0. apply in_map_iff in He as [m [<- Hm]].
    apply filter_In in Hm as [Hc Havail]. cbn [me_id me_label me_recommended].
    pose proof Hc as Hc'. apply filter_In in Hc' as [Hp Hne].
    do 2 (split; [done|]). split.
    { intros ->. discriminate. }
    split.
    { subst pieces. apply in_map_iff in Hp as [x [<- _]]. apply py_strip_idem. }
    split; [done|].
    intros Hv Hb ids Hids. apply str_in_In in Havail. subst avail.
    rewrite Hv, Hids in Havail. apply String.eqb_neq in Hb. rewrite Hb in Havail.
    simpl in Havail. apply filter_In in Havail as [_ Hin]. by apply str_in_In. }
  destruct (str_in d (map me_id models0)) eqn:Hd.
  - split; [done|]. split; [by apply str_in_In|].
    intros e He. destruct (H0 e He) as (? & ? & ? & ? & ? & ?). repeat split; auto.
  - split; [done|]. split; [by left|].
    intros e [<-|He].
    + cbn. rewrite String.eqb_refl. repeat split; done.
    + destruct (H0 e He) as (? & ? & ? & ? & ? & ?). repeat split; auto.
Qed.

(** ** More on the relay, the lock, the history queries and characters *)

(** X: what the relay of [qiniu_llm.chat_stream] yields besides [DONE]
    comes from the upstream's own lines: a content event carries the
    non-empty delta of some [data: ] line the upstream sent, and a raw
    event carries the decoded payload of some [data: ] line that failed
    to parse; the relay never yields an error event (those come only
    from a non-200 answer). *)
Theorem qiniu_relay_outputs decode parse (lines : list string) :
  Forall (fun o =>
    match o with
    | QiniuLLM.OutContent d =>
        d <> "" /\
        exists raw, In raw lines /\ String.prefix "data: " raw = true /\
          parse (decode (QiniuLLM.bytes_strip
                           (String.substring 6 (String.length raw - 6)%nat raw)))
            = Some (Some d)
    | QiniuLLM.OutRaw l =>
        exists raw, In raw lines /\ String.prefix "data: " raw = true /\
          l = decode (QiniuLLM.bytes_strip
                        (String.substring 6 (String.length raw - 6)%nat raw)) /\
          parse l = None
    | QiniuLLM.OutError _ _ => False
    | QiniuLLM.OutDone => True
    end) (QiniuLLM.relay decode parse lines).
Proof.
  induction lines as [|raw rest IH]; simpl; [by repeat constructor|].
  match type of IH with Forall _ ?out =>
    assert (IH' : Forall (fun o =>
      match o with
      | QiniuLLM.OutContent d =>
          d <> "" /\
          exists r, In r (raw :: rest) /\ String.prefix "data: " r = true /\
            parse (decode (QiniuLLM.bytes_strip
                             (String.substring 6 (String.length r - 6)%nat r)))
              = Some (Some d)
      | QiniuLLM.OutRaw l =>
          exists r, In r (raw :: rest) /\ String.prefix "data: " r = true /\
            l = decode (QiniuLLM.bytes_strip
                          (String.substring 6 (String.length r - 6)%nat r)) /\
            parse l = None
      | QiniuLLM.OutError _ _ => False
      | QiniuLLM.OutDone => True
      end) out) end.
  { eapply Forall_impl; [exact IH|]. intros [d|l|c t|]; simpl; [| |done|done].
    - intros [Hd (r & Hr & Hp)]. split; [exact Hd|]. exists r. split; [by right|exact Hp].
    - intros (r & Hr & Hp). exists r. split; [by right|exact Hp]. }
  destruct (String.eqb raw ""); [exact IH'|].
  destruct (String.prefix "data: " raw) eqn:Hpre; [|exact IH'].
  destruct (String.eqb _ "[DONE]"); [by repeat constructor|].
  destruct (parse _) as [[d|]|] eqn:Hp; [|exact IH'|].
  - destruct (String.eqb_spec d ""); [exact IH'|]. constructor; [|exact IH'].
    split; [done|]. exists raw. split; [by left|]. split; [done|exact Hp].
  - constructor; [|exact IH']. exists raw. split; [by left|]. done.
Qed.

(** X: a session lock taken by [acquire_session_lock] blocks a new
    acquisition for exactly [SESSION_LOCK_TTL_SECONDS] seconds, even when
    it is never released: after [d] seconds the lock can be taken again
    if and only if [d >= SESSION_LOCK_TTL_SECONDS]. *)
Theorem session_lock_lasts_ttl (sid : string) (w : world) (d : N)
    (Hacq : fst (acquire_lock sid w) = true) :
  fst (acquire_lock sid (tick d (snd (acquire_lock sid w)))) =
    (SESSION_LOCK_TTL_SECONDS <=? Z.of_N d).
Proof.
  unfold acquire_lock in Hacq |- *.
  destruct (lock_held sid w) eqn:Hh; [discriminate|]. cbn [fst snd].
  unfold lock_held at 1, redis_get. simpl. rewrite lookup_insert_eq. simpl.
  destruct (Z.ltb_spec (clock w + Z.of_N d) (clock w + SESSION_LOCK_TTL_SECONDS));
    destruct (Z.leb_spec SESSION_LOCK_TTL_SECONDS (Z.of_N d)); try lia; done.
Qed.


End Backend.

(** ** Concrete runs with the default configuration

    [HISTORY_MAX_TURNS = 20], [HISTORY_TTL_SECONDS = 259200] and
    [SESSION_LOCK_TTL_SECONDS = 60] unless stated otherwise. *)

(** C1. A session whose cache is empty and whose store holds 101 turns
    (created at seconds 0 to 100) gets as prompt history the store's
    OLDEST 100 turns: [load_history_from_db] orders ascending and takes
    the first [limit] rows. The history starts with the oldest turn, and
    the newest turn, the last of the store's last 100, is not in it. *)
Theorem cache_miss_history_is_oldest_rows :
  first_model_input (log (snd (chat 20 259200 60 (hello_body "s1") (reply_env "hi")
                                 world_101_rows))) =
    Some (assemble_messages generic_prompt
            (query_history "s1" 100 (rows world_101_rows)) "hello") /\
  head (query_history "s1" 100 (rows world_101_rows)) = Some (mkMsg "user" "oldest") /\
  last (query_history "s1" 100 (rows world_101_rows)) = Some (mkMsg "assistant" "m") /\
  last (spec_load_recent "s1" 100 (rows world_101_rows)) = Some (mkMsg "user" "newest") /\
  query_history "s1" 100 (rows world_101_rows) <>
    spec_load_recent "s1" 100 (rows world_101_rows).
Proof.
  split; [vm_compute; reflexivity|].
  split; [vm_compute; reflexivity|].
  split; [vm_compute; reflexivity|].
  split; [vm_compute; reflexivity|].
  intros H. apply (f_equal last) in H. vm_compute in H. congruence.
Qed.

(** C5. With [HISTORY_MAX_TURNS = 0] the bound is not applied:
    [history[-0:]] is the whole list, so after two appended pairs the
    cache holds all four entries instead of none. *)
Theorem zero_max_turns_keeps_whole_history :
  cached "s1" (snd ((append_pair 0 259200 "s1" "a" "A";;
                     append_pair 0 259200 "s1" "b" "B") quiet_env fresh_world)) =
    [mkMsg "user" "a"; mkMsg "assistant" "A"; mkMsg "user" "b"; mkMsg "assistant" "B"].
Proof. vm_compute. reflexivity. Qed.



(** C10, counterexample. A character with an empty name and no other
    attribute, requested by id: the prompt still carries the name line
    (with nothing after the label), while the claim's list of present
    non-empty attributes is the fixed instruction alone. *)
Lemma empty_name_line_kept :
  fst (build_system_prompt None (Some 7) quiet_env world_empty_name) =
    Ok (String.concat newline ["你的名字："; stay_in_character]) /\
  fst (build_system_prompt None (Some 7) quiet_env world_empty_name) <>
    Ok (String.concat newline (claim_prompt_parts empty_name_character)).
Proof.
  split; [vm_compute; reflexivity|].
  vm_compute. intros H. inversion H.
Qed.

(** ** Witnesses: the theorems at concrete inputs *)

Lemma acquire_session_lock_mutual_exclusion_witness :
  acquire_lock 60 "s1" fresh_world = (true, snd (acquire_lock 60 "s1" fresh_world)) /\
  Forall (fun op => op <> LRelease "s1") sample_lock_ops /\
  clock (run_lock_ops 20 259200 60 sample_lock_ops (snd (acquire_lock 60 "s1" fresh_world)))
    < clock fresh_world + 60 /\
  fst (acquire_lock 60 "s1"
         (run_lock_ops 20 259200 60 sample_lock_ops (snd (acquire_lock 60 "s1" fresh_world))))
    = false.
Proof.
  assert (H1 : acquire_lock 60 "s1" fresh_world =
                 (true, snd (acquire_lock 60 "s1" fresh_world))) by reflexivity.
  assert (H2 : Forall (fun op => op <> LRelease "s1") sample_lock_ops)
    by (repeat constructor; discriminate).
  assert (H3 : clock (run_lock_ops 20 259200 60 sample_lock_ops
                        (snd (acquire_lock 60 "s1" fresh_world)))
                 < clock fresh_world + 60) by (vm_compute; reflexivity).
  refine (conj H1 (conj H2 (conj H3 _))).
  exact (proj2 (acquire_session_lock_mutual_exclusion 20 259200 60 "s1" fresh_world
                  (snd (acquire_lock 60 "s1" fresh_world)) sample_lock_ops H1 H2 H3)).
Defined.

Lemma lock_released_on_every_exit_witness :
  redis (snd (chat 20 259200 60 (hello_body "s1") upstream_down_env fresh_world))
    !! _lock_key "s1" = None /\
  redis (snd (chat_stream 20 259200 60 (hello_body "s1") upstream_down_env fresh_world))
    !! _lock_key "s1" = None.
Proof.
  apply (lock_released_on_every_exit 20 259200 60 (hello_body "s1") upstream_down_env
           fresh_world); [discriminate | reflexivity].
Defined.

Lemma upstream_failure_no_persistence_witness :
  env_reply upstream_down_env = Fail "timeout" /\
  snd (env_stream upstream_down_env) = Some "timeout" /\
  rows (snd (chat_stream 20 259200 60 (hello_body "s1") upstream_down_env world_101_rows)) =
    rows world_101_rows.
Proof.
  split; [reflexivity|]. split; [reflexivity|].
  exact (proj2 (proj2 (upstream_failure_no_persistence 20 259200 60 (hello_body "s1")
           upstream_down_env world_101_rows "timeout" "timeout" eq_refl eq_refl))).
Defined.

Lemma rejected_before_side_effects_witness :
  chat 20 259200 60 (hello_body "") (reply_env "hi") fresh_world =
    (Raise (HTTPException 400 "session_id required"), fresh_world) /\
  chat_stream 20 259200 60 (hello_body "s1") (reply_env "hi")
    (snd (acquire_lock 60 "s1" fresh_world)) =
    (Raise (HTTPException 409 "会话正在处理中，请稍后再试。"),
     snd (acquire_lock 60 "s1" fresh_world)).
Proof.
  split.
  - exact (proj1 (proj1 (rejected_before_side_effects 20 259200 60 (hello_body "")
             (reply_env "hi") fresh_world) eq_refl)).
  - apply (proj2 (rejected_before_side_effects 20 259200 60 (hello_body "s1")
             (reply_env "hi") (snd (acquire_lock 60 "s1" fresh_world))));
      [discriminate | reflexivity].
Defined.


Lemma chat_never_caches_new_pair_witness :
  quiet (reply_env "hi") /\ lock_held "s1" world_101_rows = false /\
  fst (chat 20 259200 60 (hello_body "s1") (reply_env "hi") world_101_rows) =
    Raise (HTTPException 502 "LLM upstream error: object str can't be used in 'await' expression").
Proof.
  split; [intros p; reflexivity|]. split; [reflexivity|].
  exact (proj2 (proj2 (proj2 (chat_never_caches_new_pair 20 259200 60 (hello_body "s1")
           (reply_env "hi") world_101_rows)))
           (fun p => eq_refl) ltac:(discriminate) eq_refl "hi" eq_refl).
Defined.


Lemma system_prompt_policy_witness :
  quiet quiet_env /\
  fst ((b ← _fill_bound_character_if_absent (hello_body "s1");
        build_system_prompt (character_name b) (character_id b)) quiet_env fresh_world) =
    Ok generic_prompt.
Proof.
  split; [intros p; reflexivity|].
  exact (system_prompt_policy (hello_body "s1") quiet_env fresh_world (fun p => eq_refl)).
Defined.

Lemma qiniu_relay_ignores_after_done_witness :
  QiniuLLM.is_done_line "data: [DONE]" = true /\
  QiniuLLM.relay (fun s => s) (fun _ => None) ["data: x"; "data: [DONE]"; "data: y"] =
    QiniuLLM.relay (fun s => s) (fun _ => None) ["data: x"; "data: [DONE]"].
Proof.
  split; [reflexivity|].
  exact (qiniu_relay_ignores_after_done (fun s => s) (fun _ => None) ["data: x"] ["data: y"]
           "data: [DONE]" eq_refl).
Defined.

Lemma set_history_round_trip_witness :
  quiet quiet_env /\ 0 < 259200 /\
  fst (get_history "s1" quiet_env
         (tick 10 (snd (set_history 20 259200 "s1" [mkMsg "user" "hi"] quiet_env world_alice)))) =
    Ok [mkMsg "user" "hi"] /\
  (forall k, k <> _key "s1" ->
     redis (snd (set_history 20 259200 "s1" [mkMsg "user" "hi"] quiet_env world_alice)) !! k =
       redis world_alice !! k).
Proof.
  split; [intros p; reflexivity|]. split; [lia|].
  exact (set_history_round_trip 20 259200 "s1" [mkMsg "user" "hi"] quiet_env world_alice 10
           (fun p => eq_refl) ltac:(lia)).
Defined.

Lemma append_pair_keeps_last_turns_witness :
  quiet quiet_env /\ 0 < 20 /\ 0 < 259200 /\
  cached "s1" (snd (append_pair 20 259200 "s1" "q" "r" quiet_env world_session_s1)) =
    [mkMsg "user" "hi"; mkMsg "user" "q"; mkMsg "assistant" "r"] /\
  (length (cached "s1" (snd (append_pair 20 259200 "s1" "q" "r" quiet_env world_session_s1)))
     <= 40)%nat.
Proof.
  split; [intros p; reflexivity|]. split; [lia|]. split; [lia|].
  exact (append_pair_keeps_last_turns 20 259200 "s1" "q" "r" quiet_env world_session_s1
           (fun p => eq_refl) ltac:(lia) ltac:(lia)).
Defined.

Lemma remove_session_then_read_history_witness :
  quiet quiet_env /\ sessions world_session_s1 !! "s1" <> None /\
  fst (read_history "s1" quiet_env (snd (remove_session "s1" world_session_s1))) = Ok [] /\
  lock_held "s1" (snd (remove_session "s1" world_session_s1)) = false.
Proof.
  assert (Hex : sessions world_session_s1 !! "s1" <> None) by (vm_compute; discriminate).
  split; [intros p; reflexivity|]. split; [exact Hex|].
  exact (remove_session_then_read_history "s1" quiet_env world_session_s1 (fun p => eq_refl) Hex).
Defined.

Lemma create_character_unique_names_witness :
  NoDup (map char_name (characters world_alice)) /\
  create_character 6 bob_in world_alice =
    (Ok (6, ci_name bob_in),
     set_characters (characters world_alice ++
       [mkCharacter 6 (ci_name bob_in) (ci_background bob_in) (ci_personality bob_in)
          (ci_skills bob_in) (ci_current_playstyle bob_in)]) world_alice) /\
  match create_character 6 bob_in world_alice with
  | (Raise e, w') =>
      w' = world_alice /\
      ((e = HTTPException 409 "character name already exists" /\
        exists c, In c (characters world_alice) /\ char_name c = ci_name bob_in) \/
       (e = ValueError nul_message /\
        (contains_nul (ci_name bob_in) || opt_contains_nul (ci_background bob_in)
         || opt_contains_nul (ci_personality bob_in) || opt_contains_nul (ci_skills bob_in)
         || opt_contains_nul (ci_current_playstyle bob_in)) = true) \/
       (e = DataError "value too long for type character varying(255)" /\
        (255 < char_length (ci_name bob_in))%nat))
  | (Ok (i, n), w') =>
      i = 6 /\ pg_varchar 255 (ci_name bob_in) = Some n /\
      rows w' = rows world_alice /\ sessions w' = sessions world_alice /\
      redis w' = redis world_alice /\
      exists c, characters w' = characters world_alice ++ [c] /\ char_id c = 6 /\
        char_name c = n /\
        (~ In 6 (map char_id (characters world_alice)) ->
         get_character_by_id (characters w') 6 = Some c) /\
        ((char_length (ci_name bob_in) <= 255)%nat ->
         n = ci_name bob_in /\ NoDup (map char_name (characters w')) /\
         get_character_by_name (characters w') n = Some c)
  end.
Proof.
  assert (Hnd : NoDup (map char_name (characters world_alice))) by (simpl; apply NoDup_singleton).
  split; [exact Hnd|]. split; [vm_compute; reflexivity|].
  exact (create_character_unique_names 6 bob_in world_alice Hnd).
Defined.


Lemma session_lock_lasts_ttl_witness :
  fst (acquire_lock 60 "s1" world_alice) = true /\
  fst (acquire_lock 60 "s1" (tick 60 (snd (acquire_lock 60 "s1" world_alice)))) = true.
Proof.
  split; [reflexivity|].
  exact (session_lock_lasts_ttl 60 "s1" world_alice 60 eq_refl).
Defined.
